(** * WebRTCWrapper: signaling broker and session orchestrators

    A shallow embedding of [webrtc_wrapper.py].

    - [Broker] and [Stepwise]: the connection [handler] of
      [start_signaling_server], run as one task per websocket connection
      over the shared dictionaries [self.clients] and [self.message_queue].
    - [Config]: [WebRTCWrapper.__init__] and [get_default_source].
    - [Orchestrator]: [run_sender], [run_receiver] and the watcher
      [monitor_video_track].

    Scheduling model.  The program is single-threaded asyncio code.  A task
    gives up control where it waits: in [websocket.recv()],
    [asyncio.wait_for] and [asyncio.sleep], and in [websocket.send()] while
    the write buffer of the connection is full.

    - [Broker] runs a handler from one recv to the next as one step: the
      schedule on which no send is kept waiting.
    - [Stepwise] makes every send of the drain loop (line 87) a point where
      the handler is suspended and other handlers can run.  The runs of
      [Broker] are the runs of [Stepwise] that do not interrupt a drain
      (lemma [uninterrupted_run]). *)

From stdpp Require Import gmap strings list fin_maps.

Local Open Scope string_scope.

(** Websocket connections are named by numbers. *)
Abbreviation Chan := nat (only parsing).

(* ===================================================================== *)
(** * The signaling broker *)
(* ===================================================================== *)

Module Broker.

(** Exceptions that can be raised inside [handler]. *)
Inductive Exn :=
| ConnectionClosed
| KeyError
| UnboundLocalError.

(** The two dictionaries of [self] that [handler] reads and writes.  A slot
    of [clients] holds [None] or a connection. *)
Record Self := mkSelf {
  clients : gmap string (option Chan);
  message_queue : gmap string (list string)
}.

(** Assignment into one of the two dictionaries. *)
Definition set_client (s : Self) (role : string) (v : option Chan) : Self :=
  {| clients := <[role := v]> (clients s); message_queue := message_queue s |}.

Definition set_queue (s : Self) (role : string) (q : list string) : Self :=
  {| clients := clients s; message_queue := <[role := q]> (message_queue s) |}.

(** [__init__], lines 35 and 37. *)
Definition init_self : Self :=
  {| clients := <["sender" := None]> (<["receiver" := None]> ∅);
     message_queue := <["sender" := []]> (<["receiver" := []]> ∅) |}.

(** What a run of the broker does, one label per statement with an effect
    that can be seen from outside or that the properties speak about. *)
Inductive Action :=
| Reply (c : Chan) (m : string)                     (* line 79, sent *)
| Bind (role : string) (c : Chan)                   (* line 83 *)
| Drain (role : string) (c : Chan) (m : string)     (* line 87, sent *)
| Arrive (target : string) (m : string)             (* lines 91-93 *)
| Forward (target : string) (c : Chan) (m : string) (* line 97, sent *)
| Enqueue (target : string) (m : string)            (* line 101 *)
| SendFail (c : Chan) (m : string)      (* a send that raised ConnectionClosed *)
| Unbind (role : string)                            (* line 106 *)
| Escape (e : Exn)                      (* an exception leaves the handler *)
| Close (c : Chan).      (* the server closes a connection whose handler ended *)

(** Where the handler task of a connection stands. *)
Inductive Task :=
| AwaitRole                (* suspended in the recv of line 74 *)
| Relay (role : string)    (* suspended in the recv of line 91 *)
| Finished.                (* the handler has returned or raised *)

(** How one step of a handler ends. *)
Inductive Outcome :=
| Suspended (t : Task)     (* waiting in the next recv *)
| Returned                 (* line 80 *)
| Handled                  (* the except clause of lines 103-106 ran *)
| Crashed (e : Exn).       (* an exception the handler does not catch *)

(** [websocket.send]: it goes through unless the connection is gone, in
    which case it raises [ConnectionClosed]. *)
Definition ws_send (gone : gset Chan) (c : Chan) : bool :=
  bool_decide (c ∉ gone).

(** The except clause, lines 103-106.  The variable [role] is unbound when
    the exception comes from the recv of line 74: formatting the log line
    then raises [UnboundLocalError] and the assignment is not reached. *)
Definition on_connection_closed (role : option string) (s : Self)
  : Self * list Action * Outcome :=
  match role with
  | None => (s, [], Crashed UnboundLocalError)
  | Some r =>
      (set_client s r None, [Unbind r], Handled)
  end.

(** The loop of lines 86-87 on the queue [q] of [role]: [pop(0)] takes the
    head, then it is sent.  Returns the actions, what is left in the queue,
    and whether the loop ran to its end. *)
Fixpoint drain (gone : gset Chan) (role : string) (c : Chan) (q : list string)
  : list Action * list string * bool :=
  match q with
  | [] => ([], [], true)
  | m :: q' =>
      if ws_send gone c then
        let '(acts, rest, ok) := drain gone role c q' in
        (Drain role c m :: acts, rest, ok)
      else ([SendFail c m], q', false)
  end.

(** Lines 74-88: the handler from its start to the first recv of the relay
    loop.  [r] is what the recv of line 74 gives: a text, or [None] when it
    raises [ConnectionClosed]. *)
Definition accept (gone : gset Chan) (c : Chan) (r : option string) (s : Self)
  : Self * list Action * Outcome :=
  match r with
  | None => on_connection_closed None s
  | Some role =>
      match clients s !! role with
      | None =>                                  (* role not in self.clients *)
          if ws_send gone c then (s, [Reply c "Invalid role"], Returned)
          else
            let '(s', acts, o) := on_connection_closed (Some role) s in
            (s', SendFail c "Invalid role" :: acts, o)
      | Some _ =>
          let s1 := set_client s role (Some c) in
          match message_queue s1 !! role with
          | None => (s1, [Bind role c], Crashed KeyError)
          | Some q =>
              let '(acts, rest, ok) := drain gone role c q in
              let s2 := set_queue s1 role rest in
              if ok then (s2, Bind role c :: acts, Suspended (Relay role))
              else
                let '(s3, acts', o) := on_connection_closed (Some role) s2 in
                (s3, (Bind role c :: acts ++ acts')%list, o)
          end
      end
  end.

(** Line 93. *)
Definition opposite (role : string) : string :=
  if decide (role = "sender") then "receiver" else "sender".

(** [self.clients.get(target)], then its truth value: a missing key and a
    slot holding [None] both count as not connected. *)
Definition get_client (s : Self) (target : string) : option Chan :=
  default None (clients s !! target).

(** Lines 91-101: one round of the relay loop of a handler bound as [role].
    [r] is what the recv of line 91 gives. *)
Definition relay (gone : gset Chan) (role : string) (r : option string) (s : Self)
  : Self * list Action * Outcome :=
  match r with
  | None => on_connection_closed (Some role) s
  | Some message =>
      let target := opposite role in
      match get_client s target with
      | Some target_ws =>
          if ws_send gone target_ws then
            (s, [Arrive target message; Forward target target_ws message],
             Suspended (Relay role))
          else
            let '(s', acts, o) := on_connection_closed (Some role) s in
            (s', Arrive target message :: SendFail target_ws message :: acts, o)
      | None =>
          match message_queue s !! target with
          | None => (s, [Arrive target message], Crashed KeyError)
          | Some q =>
              (set_queue s target (q ++ [message])%list,
               [Arrive target message; Enqueue target message],
               Suspended (Relay role))
          end
      end
  end.

(** [handler], lines 65-106, resumed with the result [r] of the recv in
    which its task [t] was waiting. *)
Definition handler (gone : gset Chan) (websocket : Chan) (t : Task)
    (r : option string) (s : Self) : Self * list Action * Outcome :=
  match t with
  | AwaitRole => accept gone websocket r s
  | Relay role => relay gone role r s
  | Finished => (s, [], Suspended Finished)
  end.

(** The server: the shared dictionaries, one task per connection (a
    connection without an entry has its handler waiting for the role), and
    the connections whose far end is gone. *)
Record World := mkWorld {
  self : Self;
  tasks : gmap Chan Task;
  gone : gset Chan
}.

Definition init : World :=
  {| self := init_self; tasks := ∅; gone := ∅ |}.

Definition task_of (w : World) (c : Chan) : Task :=
  default AwaitRole (tasks w !! c).

(** What happens to the server from outside. *)
Inductive Event :=
| Lost (c : Chan)                      (* the far end of [c] goes away *)
| Recv (c : Chan) (r : option string). (* the pending recv of [c] completes:
                                          a text, or ConnectionClosed *)

(** [websockets.serve], line 109: when a handler ends, in whatever way, the
    server closes its connection. *)
Definition settle (w : World) (c : Chan) (res : Self * list Action * Outcome)
  : World * list Action :=
  let '(s, acts, o) := res in
  match o with
  | Suspended t =>
      ({| self := s; tasks := <[c := t]> (tasks w); gone := gone w |}, acts)
  | Returned | Handled =>
      ({| self := s; tasks := <[c := Finished]> (tasks w); gone := gone w |},
       (acts ++ [Close c])%list)
  | Crashed e =>
      ({| self := s; tasks := <[c := Finished]> (tasks w); gone := gone w |},
       (acts ++ [Escape e; Close c])%list)
  end.

Definition step (w : World) (e : Event) : World * list Action :=
  match e with
  | Lost c =>
      ({| self := self w; tasks := tasks w; gone := {[c]} ∪ gone w |}, [])
  | Recv c r =>
      match task_of w c with
      | Finished => (w, [])
      | t => settle w c (handler (gone w) c t r (self w))
      end
  end.

(** A run: the events in order, the actions collected. *)
Fixpoint run (w : World) (es : list Event) : World * list Action :=
  match es with
  | [] => (w, [])
  | e :: es' =>
      let '(w1, a1) := step w e in
      let '(w2, a2) := run w1 es' in
      (w2, (a1 ++ a2)%list)
  end.

(** The pending queue of a role, empty for a role without one. *)
Definition get_queue (s : Self) (role : string) : list string :=
  default [] (message_queue s !! role).

Definition queue (w : World) (role : string) : list string :=
  get_queue (self w) role.

(** The slot of a role. *)
Definition slot (w : World) (role : string) : option Chan :=
  get_client (self w) role.

(** ** The paths through one step *)

Definition valid_role (R : string) : Prop := R = "sender" \/ R = "receiver".

(** The world after a handler step on connection [c]. *)
Definition upd (w : World) (s : Self) (c : Chan) (t : Task) : World :=
  {| self := s; tasks := <[c := t]> (tasks w); gone := gone w |}.

Abbreviation cl w := (clients (self w)).
Abbreviation mq w := (message_queue (self w)).

(** Every step follows exactly one of these paths of [handler]. *)
Inductive Path (w : World) : Event -> World -> list Action -> Prop :=
| P_lost c :
    Path w (Lost c)
      {| self := self w; tasks := tasks w; gone := {[c]} ∪ gone w |} []
| P_finished c r :
    task_of w c = Finished ->
    Path w (Recv c r) w []
| P_no_role c :
    task_of w c = AwaitRole ->
    Path w (Recv c None) (upd w (self w) c Finished)
      [Escape UnboundLocalError; Close c]
| P_invalid c role :
    task_of w c = AwaitRole -> cl w !! role = None -> c ∉ gone w ->
    Path w (Recv c (Some role)) (upd w (self w) c Finished)
      [Reply c "Invalid role"; Close c]
| P_invalid_gone c role :
    task_of w c = AwaitRole -> cl w !! role = None -> c ∈ gone w ->
    Path w (Recv c (Some role)) (upd w (set_client (self w) role None) c Finished)
      [SendFail c "Invalid role"; Unbind role; Close c]
| P_no_queue c role :
    task_of w c = AwaitRole -> is_Some (cl w !! role) -> mq w !! role = None ->
    Path w (Recv c (Some role))
      (upd w (set_client (self w) role (Some c)) c Finished)
      [Bind role c; Escape KeyError; Close c]
| P_bind c role q :
    task_of w c = AwaitRole -> is_Some (cl w !! role) -> mq w !! role = Some q ->
    c ∉ gone w \/ q = [] ->
    Path w (Recv c (Some role))
      (upd w (set_queue (set_client (self w) role (Some c)) role []) c (Relay role))
      (Bind role c :: map (Drain role c) q)
| P_bind_gone c role m q :
    task_of w c = AwaitRole -> is_Some (cl w !! role) ->
    mq w !! role = Some (m :: q) -> c ∈ gone w ->
    Path w (Recv c (Some role))
      (upd w (set_client (set_queue (set_client (self w) role (Some c)) role q)
                role None) c Finished)
      [Bind role c; SendFail c m; Unbind role; Close c]
| P_closed c role :
    task_of w c = Relay role ->
    Path w (Recv c None) (upd w (set_client (self w) role None) c Finished)
      [Unbind role; Close c]
| P_forward c role m t :
    task_of w c = Relay role -> slot w (opposite role) = Some t -> t ∉ gone w ->
    Path w (Recv c (Some m)) (upd w (self w) c (Relay role))
      [Arrive (opposite role) m; Forward (opposite role) t m]
| P_forward_gone c role m t :
    task_of w c = Relay role -> slot w (opposite role) = Some t -> t ∈ gone w ->
    Path w (Recv c (Some m)) (upd w (set_client (self w) role None) c Finished)
      [Arrive (opposite role) m; SendFail t m; Unbind role; Close c]
| P_enqueue c role m q :
    task_of w c = Relay role -> slot w (opposite role) = None ->
    mq w !! opposite role = Some q ->
    Path w (Recv c (Some m))
      (upd w (set_queue (self w) (opposite role) (q ++ [m])%list) c (Relay role))
      [Arrive (opposite role) m; Enqueue (opposite role) m]
| P_enqueue_none c role m :
    task_of w c = Relay role -> slot w (opposite role) = None ->
    mq w !! opposite role = None ->
    Path w (Recv c (Some m)) (upd w (self w) c Finished)
      [Arrive (opposite role) m; Escape KeyError; Close c].

(** ** Invariants of the reachable worlds *)

Record Inv (w : World) : Prop := {
  inv_keys : forall R, valid_role R -> is_Some (cl w !! R);
  inv_queues : forall R, valid_role R -> is_Some (mq w !! R);
  inv_slot : forall R c, valid_role R -> slot w R = Some c -> task_of w c = Relay R;
  inv_empty : forall R c, valid_role R -> slot w R = Some c -> queue w R = []
}.

(** The worlds the server can be in. *)
Definition reachable (w : World) : Prop := exists es, (run init es).1 = w.

(** ** Arrival order and delivery order *)

(** The messages addressed to [R], in the order the broker received them. *)
Definition arrived (R : string) (a : Action) : option string :=
  match a with
  | Arrive t m => if decide (t = R) then Some m else None
  | _ => None
  end.

(** The messages sent to a connection in the slot of [R]. *)
Definition delivered_msg (R : string) (a : Action) : option string :=
  match a with
  | Drain r _ m | Forward r _ m => if decide (r = R) then Some m else None
  | _ => None
  end.

Definition arrivals (R : string) (tr : list Action) : list string :=
  omap (arrived R) tr.

Definition delivered (R : string) (tr : list Action) : list string :=
  omap (delivered_msg R) tr.

Arguments arrivals : simpl never.
Arguments delivered : simpl never.

Definition send_failed (a : Action) : bool :=
  match a with SendFail _ _ => true | _ => false end.

(** No send of the run raised. *)
Definition lossless (tr : list Action) : Prop :=
  Forall (fun a => send_failed a = false) tr.

(** The messages sent to connection [c] as the holder of the slot of [R]. *)
Definition sent_msg (R : string) (c : Chan) (a : Action) : option string :=
  match a with
  | Drain r c' m | Forward r c' m =>
      if decide (r = R /\ c' = c) then Some m else None
  | _ => None
  end.

Definition sent_on (R : string) (c : Chan) (tr : list Action) : list string :=
  omap (sent_msg R c) tr.

Arguments sent_on : simpl never.

(** The connection a message is written to, for the actions that are a
    completed [websocket.send]. *)
Definition sends_to (a : Action) : option Chan :=
  match a with
  | Reply c _ | Drain _ c _ | Forward _ c _ => Some c
  | _ => None
  end.

(** A connection is closed once its far end is gone or its handler has
    ended (the server then closes it). *)
Definition closed (w : World) (c : Chan) : Prop :=
  c ∈ gone w \/ task_of w c = Finished.

(** ** Sample runs *)

(** A world in which the sender is connected and has queued two messages
    for the receiver. *)
Definition two_queued : World :=
  (run init [Recv 1 (Some "sender"); Recv 1 (Some "offer");
             Recv 1 (Some "candidate")]).1.

(** The sender talks before the receiver is there, goes on after the
    receiver has bound, and once more after the receiver has left. *)
Definition mixed_run : list Event :=
  [Recv 1 (Some "sender"); Recv 1 (Some "m1"); Recv 1 (Some "m2");
   Recv 2 (Some "receiver"); Recv 1 (Some "m3"); Recv 2 None;
   Recv 1 (Some "m4")].

(** Both peers are connected. *)
Definition paired : World :=
  (run init [Recv 1 (Some "sender"); Recv 2 (Some "receiver")]).1.

End Broker.

(* ===================================================================== *)
(** * The broker with the sends of the drain loop as suspension points *)
(* ===================================================================== *)

(** [Broker] runs a handler from one recv to the next without interruption.
    In the source line 87 is [await websocket.send(...)], reached after the
    slot has been assigned at line 83: while that send waits for room in the
    write buffer of the connection, other handlers run, and they see the
    slot bound and the rest of the queue still pending.  Here every send of
    the drain loop is a point where the handler is suspended; it goes on
    when the event [Sent] resumes it.

    A send on a connection that is gone raises when it is issued.  A send on
    an open connection writes its message; when the handler is resumed the
    send returns, or raises if the connection has died in between.

    The sends of lines 79 and 97 can be kept waiting as well.  Between such
    a send and the next statement of the handler that reads or writes the
    dictionaries there is the recv of line 91 or the end of the handler, so
    they stay inside the step that issues them.  If one of them raises only
    when it is resumed, the except clause leaves the dictionaries as it does
    when the send of line 79 raises at once, or when the recv of line 91
    raises. *)

Module Stepwise.

Import Broker.

(** Where the handler task of a connection stands. *)
Inductive Task :=
| At (t : Broker.Task)        (* as in [Broker]: in a recv, or finished *)
| Draining (role : string).   (* suspended in the send of line 87 *)

(** How one step of a handler ends. *)
Inductive Outcome :=
| Suspended (t : Task)
| Returned
| Handled
| Crashed (e : Exn).

(** The result of a piece of [Broker.handler], read as a result here. *)
Definition lift (res : Self * list Action * Broker.Outcome)
  : Self * list Action * Outcome :=
  let '(s, acts, o) := res in
  (s, acts,
   match o with
   | Broker.Suspended t => Suspended (At t)
   | Broker.Returned => Returned
   | Broker.Handled => Handled
   | Broker.Crashed e => Crashed e
   end).

(** Lines 86-87, from one test of the loop condition to the next
    suspension.  With the queue empty the loop is left and the handler
    waits in the recv of line 91.  Otherwise [pop(0)] takes the head out of
    the queue and the send is issued. *)
Definition drain_round (gone : gset Chan) (role : string) (c : Chan) (s : Self)
  : Self * list Action * Outcome :=
  match message_queue s !! role with
  | None => (s, [], Crashed KeyError)
  | Some [] => (s, [], Suspended (At (Relay role)))
  | Some (m :: q) =>
      let s1 := set_queue s role q in
      if ws_send gone c then (s1, [Drain role c m], Suspended (Draining role))
      else
        let '(s2, acts, o) := lift (on_connection_closed (Some role) s1) in
        (s2, SendFail c m :: acts, o)
  end.

(** Lines 74-87: the handler from its start to its first suspension after
    the recv of line 74. *)
Definition accept (gone : gset Chan) (c : Chan) (r : option string) (s : Self)
  : Self * list Action * Outcome :=
  match r with
  | None => lift (on_connection_closed None s)
  | Some role =>
      match clients s !! role with
      | None =>
          if ws_send gone c then (s, [Reply c "Invalid role"], Returned)
          else
            let '(s', acts, o) := lift (on_connection_closed (Some role) s) in
            (s', SendFail c "Invalid role" :: acts, o)
      | Some _ =>
          let '(s', acts, o) :=
            drain_round gone role c (set_client s role (Some c)) in
          (s', Bind role c :: acts, o)
      end
  end.

(** What resumes a suspended handler. *)
Inductive Resume :=
| Received (r : option string)   (* its recv gives a text, or raises *)
| Written (ok : bool).           (* its send of line 87 returns, or raises *)

(** [handler], lines 65-106, resumed where its task [t] was waiting; [None]
    when the task does not wait for [x]. *)
Definition handler (gone : gset Chan) (websocket : Chan) (t : Task)
    (x : Resume) (s : Self) : option (Self * list Action * Outcome) :=
  match t, x with
  | At AwaitRole, Received r => Some (accept gone websocket r s)
  | At (Relay role), Received r => Some (lift (relay gone role r s))
  | Draining role, Written true => Some (drain_round gone role websocket s)
  | Draining role, Written false => Some (lift (on_connection_closed (Some role) s))
  | _, _ => None
  end.

Record World := mkWorld {
  self : Self;
  tasks : gmap Chan Task;
  gone : gset Chan
}.

Definition init : World :=
  {| self := init_self; tasks := ∅; gone := ∅ |}.

Definition task_of (w : World) (c : Chan) : Task :=
  default (At AwaitRole) (tasks w !! c).

(** What happens to the server from outside. *)
Inductive Event :=
| Lost (c : Chan)                      (* the far end of [c] goes away *)
| Recv (c : Chan) (r : option string)  (* the pending recv of [c] completes *)
| Sent (c : Chan) (ok : bool).         (* the pending send of [c]'s handler
                                          completes: it returns, or raises
                                          ConnectionClosed *)

(** The world after a handler step on connection [c]. *)
Definition upd (w : World) (s : Self) (c : Chan) (t : Task) : World :=
  {| self := s; tasks := <[c := t]> (tasks w); gone := gone w |}.

(** When a handler ends, in whatever way, the server closes its
    connection. *)
Definition settle (w : World) (c : Chan) (res : Self * list Action * Outcome)
  : World * list Action :=
  let '(s, acts, o) := res in
  match o with
  | Suspended t => (upd w s c t, acts)
  | Returned | Handled => (upd w s c (At Finished), (acts ++ [Close c])%list)
  | Crashed e => (upd w s c (At Finished), (acts ++ [Escape e; Close c])%list)
  end.

Definition resume (w : World) (c : Chan) (x : Resume) : World * list Action :=
  match handler (gone w) c (task_of w c) x (self w) with
  | Some res => settle w c res
  | None => (w, [])
  end.

Definition step (w : World) (e : Event) : World * list Action :=
  match e with
  | Lost c =>
      ({| self := self w; tasks := tasks w; gone := {[c]} ∪ gone w |}, [])
  | Recv c r => resume w c (Received r)
  | Sent c ok => resume w c (Written ok)
  end.

Fixpoint run (w : World) (es : list Event) : World * list Action :=
  match es with
  | [] => (w, [])
  | e :: es' =>
      let '(w1, a1) := step w e in
      let '(w2, a2) := run w1 es' in
      (w2, (a1 ++ a2)%list)
  end.

Definition queue (w : World) (role : string) : list string :=
  get_queue (self w) role.

Definition slot (w : World) (role : string) : option Chan :=
  get_client (self w) role.

Abbreviation cl w := (clients (self w)).
Abbreviation mq w := (message_queue (self w)).

(** ** The paths through one step *)

Inductive Path (w : World) : Event -> World -> list Action -> Prop :=
| S_lost c :
    Path w (Lost c)
      {| self := self w; tasks := tasks w; gone := {[c]} ∪ gone w |} []
| S_recv_idle c r :
    task_of w c = At Finished \/ (exists role, task_of w c = Draining role) ->
    Path w (Recv c r) w []
| S_sent_idle c ok t :
    task_of w c = At t ->
    Path w (Sent c ok) w []
| S_no_role c :
    task_of w c = At AwaitRole ->
    Path w (Recv c None) (upd w (self w) c (At Finished))
      [Escape UnboundLocalError; Close c]
| S_invalid c role :
    task_of w c = At AwaitRole -> cl w !! role = None -> c ∉ gone w ->
    Path w (Recv c (Some role)) (upd w (self w) c (At Finished))
      [Reply c "Invalid role"; Close c]
| S_invalid_gone c role :
    task_of w c = At AwaitRole -> cl w !! role = None -> c ∈ gone w ->
    Path w (Recv c (Some role))
      (upd w (set_client (self w) role None) c (At Finished))
      [SendFail c "Invalid role"; Unbind role; Close c]
| S_bind_no_queue c role :
    task_of w c = At AwaitRole -> is_Some (cl w !! role) ->
    mq w !! role = None ->
    Path w (Recv c (Some role))
      (upd w (set_client (self w) role (Some c)) c (At Finished))
      [Bind role c; Escape KeyError; Close c]
| S_bind_empty c role :
    task_of w c = At AwaitRole -> is_Some (cl w !! role) ->
    mq w !! role = Some [] ->
    Path w (Recv c (Some role))
      (upd w (set_client (self w) role (Some c)) c (At (Relay role)))
      [Bind role c]
| S_bind_send c role m q :
    task_of w c = At AwaitRole -> is_Some (cl w !! role) ->
    mq w !! role = Some (m :: q) -> c ∉ gone w ->
    Path w (Recv c (Some role))
      (upd w (set_queue (set_client (self w) role (Some c)) role q) c
         (Draining role))
      [Bind role c; Drain role c m]
| S_bind_fail c role m q :
    task_of w c = At AwaitRole -> is_Some (cl w !! role) ->
    mq w !! role = Some (m :: q) -> c ∈ gone w ->
    Path w (Recv c (Some role))
      (upd w (set_client (set_queue (set_client (self w) role (Some c)) role q)
                role None) c (At Finished))
      [Bind role c; SendFail c m; Unbind role; Close c]
| S_drain_no_queue c role :
    task_of w c = Draining role -> mq w !! role = None ->
    Path w (Sent c true) (upd w (self w) c (At Finished))
      [Escape KeyError; Close c]
| S_drain_done c role :
    task_of w c = Draining role -> mq w !! role = Some [] ->
    Path w (Sent c true) (upd w (self w) c (At (Relay role))) []
| S_drain_send c role m q :
    task_of w c = Draining role -> mq w !! role = Some (m :: q) ->
    c ∉ gone w ->
    Path w (Sent c true) (upd w (set_queue (self w) role q) c (Draining role))
      [Drain role c m]
| S_drain_fail c role m q :
    task_of w c = Draining role -> mq w !! role = Some (m :: q) ->
    c ∈ gone w ->
    Path w (Sent c true)
      (upd w (set_client (set_queue (self w) role q) role None) c (At Finished))
      [SendFail c m; Unbind role; Close c]
| S_drain_raise c role :
    task_of w c = Draining role ->
    Path w (Sent c false) (upd w (set_client (self w) role None) c (At Finished))
      [Unbind role; Close c]
| S_closed c role :
    task_of w c = At (Relay role) ->
    Path w (Recv c None) (upd w (set_client (self w) role None) c (At Finished))
      [Unbind role; Close c]
| S_forward c role m t :
    task_of w c = At (Relay role) -> slot w (opposite role) = Some t ->
    t ∉ gone w ->
    Path w (Recv c (Some m)) (upd w (self w) c (At (Relay role)))
      [Arrive (opposite role) m; Forward (opposite role) t m]
| S_forward_gone c role m t :
    task_of w c = At (Relay role) -> slot w (opposite role) = Some t ->
    t ∈ gone w ->
    Path w (Recv c (Some m)) (upd w (set_client (self w) role None) c (At Finished))
      [Arrive (opposite role) m; SendFail t m; Unbind role; Close c]
| S_enqueue c role m q :
    task_of w c = At (Relay role) -> slot w (opposite role) = None ->
    mq w !! opposite role = Some q ->
    Path w (Recv c (Some m))
      (upd w (set_queue (self w) (opposite role) (q ++ [m])%list) c
         (At (Relay role)))
      [Arrive (opposite role) m; Enqueue (opposite role) m]
| S_enqueue_none c role m :
    task_of w c = At (Relay role) -> slot w (opposite role) = None ->
    mq w !! opposite role = None ->
    Path w (Recv c (Some m)) (upd w (self w) c (At Finished))
      [Arrive (opposite role) m; Escape KeyError; Close c].

(** ** Invariants of the reachable worlds *)

(** The slot of a role holds only a connection whose handler is at work for
    that role; the queue of the role can be non-empty under a bound slot
    only while the holder is still in its drain loop. *)
Record Inv (w : World) : Prop := {
  inv_keys : forall R, valid_role R -> is_Some (cl w !! R);
  inv_queues : forall R, valid_role R -> is_Some (mq w !! R);
  inv_slot : forall R c, valid_role R -> slot w R = Some c ->
      task_of w c = Draining R \/
      (task_of w c = At (Relay R) /\ queue w R = [])
}.

Definition reachable (w : World) : Prop := exists es, (run init es).1 = w.

(** The connection on which an action issues a [websocket.send], whether
    the send goes through or raises. *)
Definition attempts (a : Action) : option Chan :=
  match a with
  | Reply c _ | Drain _ c _ | Forward _ c _ | SendFail c _ => Some c
  | _ => None
  end.

(** A connection is closed once its far end is gone or its handler has
    ended (the server then closes it). *)
Definition closed (w : World) (c : Chan) : Prop :=
  c ∈ gone w \/ task_of w c = At Finished.

(** ** Runs without interruption *)

(** A world of [Broker] read as a world here: every handler is in a recv or
    has ended. *)
Definition embed (w : Broker.World) : World :=
  {| self := Broker.self w;
     tasks := At <$> Broker.tasks w;
     gone := Broker.gone w |}.

(** The schedule that lets nothing happen while a handler is in its drain
    loop: an event of [Broker], followed at once by the completion of every
    send of the drain it starts. *)
Definition uninterrupted_step (w : Broker.World) (e : Broker.Event)
  : list Event :=
  match e with
  | Broker.Lost c => [Lost c]
  | Broker.Recv c r =>
      Recv c r ::
      match Broker.task_of w c, r with
      | AwaitRole, Some role =>
          replicate (length (Broker.queue w role)) (Sent c true)
      | _, _ => []
      end
  end.

Fixpoint uninterrupted (w : Broker.World) (es : list Broker.Event)
  : list Event :=
  match es with
  | [] => []
  | e :: es' =>
      (uninterrupted_step w e ++ uninterrupted (Broker.step w e).1 es')%list
  end.

(** ** Sample runs *)

(** Two messages wait for the receiver.  The receiver binds and is sent
    the first; while that send is pending the sender's next message
    arrives; then the drain loop goes on.  No connection is lost. *)
Definition overtaking : list Event :=
  [Recv 1 (Some "sender"); Recv 1 (Some "offer"); Recv 1 (Some "candidate");
   Recv 2 (Some "receiver"); Recv 1 (Some "late"); Sent 2 true; Sent 2 true].

(** Two messages wait for the receiver.  The first connection to declare
    "receiver" is gone already; a second one declares it afterwards. *)
Definition dead_binder : list Event :=
  [Recv 1 (Some "sender"); Recv 1 (Some "offer"); Recv 1 (Some "candidate");
   Lost 2; Recv 2 (Some "receiver"); Recv 3 (Some "receiver"); Sent 3 true].

(** Both peers are bound, then the far end of the receiver goes away. *)
Definition receiver_lost : World :=
  (run init [Recv 1 (Some "sender"); Recv 2 (Some "receiver"); Lost 2]).1.

(** The receiver has bound and is in its drain loop, one message sent and
    one still queued. *)
Definition mid_drain : World :=
  (run init [Recv 1 (Some "sender"); Recv 1 (Some "offer");
             Recv 1 (Some "candidate"); Recv 2 (Some "receiver")]).1.

End Stepwise.

(* ===================================================================== *)
(** * Construction of the wrapper *)
(* ===================================================================== *)

Module Config.

(** A video source is a device path or file name ([str]) or a camera index
    ([int]). *)
Inductive Source :=
| Device (path : string)
| Index (n : Z).

(** Python's truth value of the [source] argument: [None], the empty string
    and the integer zero are false. *)
Definition truthy (source : option Source) : bool :=
  match source with
  | None => false
  | Some (Device path) => negb (String.eqb path "")
  | Some (Index n) => negb (n =? 0)%Z
  end.

Inductive Error := RuntimeError (msg : string).

(** [get_default_source], lines 40-58; [system] is [platform.system()]. *)
Definition get_default_source (system : string) : Source + Error :=
  if String.eqb system "Linux" then inl (Device "/dev/video0")
  else if String.eqb system "Darwin" then inl (Device "default:none")
  else if String.eqb system "Windows" then inl (Index 0)
  else inr (RuntimeError "Unsupported OS").

Record WebRTCWrapper := mkWrapper {
  signaling_server_url : string;
  port : Z;
  source : Source;
  save_output : bool;
  broker : Broker.Self;            (* self.clients, self.message_queue *)
  sender_task : option nat
}.

(** [__init__], lines 30-38.  [source or self.get_default_source()] calls
    [get_default_source] only when [source] is false. *)
Definition init (system : string) (signaling_server_url : string) (port : Z)
    (source : option Source) (save_output : bool) : WebRTCWrapper + Error :=
  let chosen :=
    match source with
    | Some src => if truthy source then inl src else get_default_source system
    | None => get_default_source system
    end in
  match chosen with
  | inl src =>
      inl {| signaling_server_url := signaling_server_url;
             port := port;
             source := src;
             save_output := save_output;
             broker := Broker.init_self;
             sender_task := None |}
  | inr err => inr err
  end.

(** The defaults of the keyword arguments, line 20. *)
Definition default_url : string := "ws://localhost:8765".
Definition default_port : Z := 8765.

End Config.

(* ===================================================================== *)
(** * The session orchestrators *)
(* ===================================================================== *)

Module Orchestrator.

(** [track.readyState]. *)
Inductive ReadyState := Live | Ended.

(** [pc.iceConnectionState]. *)
Inductive IceState :=
| IceNew | IceChecking | IceConnected | IceCompleted
| IceFailed | IceDisconnected | IceClosed.

Definition is_closed_state (s : IceState) : bool :=
  match s with IceClosed => true | _ => false end.

(** What goes over the rendezvous channel: a bare role token, or the JSON
    object built from a session description. *)
Inductive Payload :=
| Token (role : string)
| Description (type sdp : string).

Inductive Level := INFO | WARNING | ERROR.

(** The calls an orchestrator makes on its collaborators, in order. *)
Inductive Call :=
| AddTrack (kind : string)              (* pc.addTrack *)
| CreateOffer                           (* pc.createOffer *)
| CreateAnswer                          (* pc.createAnswer *)
| SetLocalDescription                   (* pc.setLocalDescription *)
| SetRemoteDescription (message : string) (* json.loads, pc.setRemoteDescription *)
| Connect                               (* websockets.connect, entered *)
| Send (p : Payload)                    (* websocket.send *)
| WaitRecv (timeout : nat)              (* asyncio.wait_for(websocket.recv(), timeout) *)
| WsClose                               (* leaving the async with block *)
| StartMonitor                          (* asyncio.ensure_future(monitor_video_track()) *)
| Sleep (tenths : nat)                  (* asyncio.sleep, in tenths of a second *)
| PcClose                               (* pc.close() *)
| PltClose                              (* plt.close(fig) *)
| WriterRelease                         (* video_writer.release() *)
| Log (l : Level) (msg : string).

(** Modelled from the spec: the RTC engine is the aiortc library, which is
    not part of the source.  What the orchestrators need of a peer
    connection is whether it is closed, and how often it was released. *)
Record Engine := mkEngine {
  pc_closed : bool;
  releases : nat          (* how many times the connection was released *)
}.

(** Modelled from the spec: [RTCPeerConnection()], a connection that is
    open. *)
Definition new_pc : Engine := {| pc_closed := false; releases := 0 |}.

(** Modelled from the spec: [pc.close()] releases the connection; on a
    connection that is closed already it does nothing (sections 4.2 step 6
    and 7: teardown releases the engine and is idempotent). *)
Definition pc_close (e : Engine) : Engine :=
  if pc_closed e then e
  else {| pc_closed := true; releases := S (releases e) |}.

(** Modelled from the spec: [pc.iceConnectionState], given what the
    transport reports; after a local close it reads "closed" (section 4.2
    step 5: closed from either local teardown or a peer-initiated close). *)
Definition iceConnectionState (e : Engine) (reported : IceState) : IceState :=
  if pc_closed e then IceClosed else reported.

(** What the rendezvous channel does after the orchestrator's first
    messages: a reply after some time, nothing, or a failure after some
    time. *)
Inductive Reply :=
| Arrives (after : nat) (message : string)
| Silent
| Breaks (after : nat).

Inductive Awaited :=
| Got (message : string)
| TimedOut                 (* asyncio.TimeoutError *)
| Raised.                  (* the recv itself raised *)

(** [asyncio.wait_for(websocket.recv(), timeout)]. *)
Definition wait_for (r : Reply) (timeout : nat) : Awaited :=
  match r with
  | Arrives t m => if (t <=? timeout)%nat then Got m else TimedOut
  | Silent => TimedOut
  | Breaks t => if (t <=? timeout)%nat then Raised else TimedOut
  end.

Definition no_reply_within (timeout : nat) (r : Reply) : Prop :=
  match r with
  | Arrives t _ | Breaks t => (timeout < t)%nat
  | Silent => True
  end.

(** The surroundings of one orchestrator run. *)
Record Env := mkEnv {
  video : bool;                      (* player.video *)
  audio : bool;                      (* player.audio *)
  local_sdp : string;                (* pc.localDescription.sdp *)
  connects : bool;                   (* websockets.connect succeeds *)
  reply : Reply;
  accepts : string -> bool           (* json.loads and setRemoteDescription
                                        succeed on this message *)
}.

Inductive Status := Returned | Running.

(** ** The initiator *)

(** What the two polling loops of the sender observe, in the order in which
    the loop conditions are evaluated. *)
Inductive Signal :=
| MainPoll (reported : IceState)     (* line 180 *)
| TrackPoll (state : ReadyState).    (* line 169 *)

(** [monitor_video_track], lines 164-174, at one evaluation of its loop
    condition: it sleeps a tenth of a second while the track is live, and
    closes the engine and ends otherwise.  The flag tells whether the
    monitor goes on. *)
Definition monitor_video_track (state : ReadyState) (e : Engine)
  : list Call * Engine * bool :=
  match state with
  | Live => ([Sleep 1], e, true)
  | Ended =>
      ([Log INFO "Video track ended, closing connection"; PcClose],
       pc_close e, false)
  end.

(** Lines 162-181: the keep-alive loop of [run_sender] together with the
    task [monitor_video_track]; [mon] tells whether the monitor is running.
    The result says whether the keep-alive loop has been left. *)
Fixpoint sender_active (mon : bool) (e : Engine) (sigs : list Signal)
  : list Call * Engine * bool :=
  match sigs with
  | [] => ([], e, false)
  | MainPoll reported :: rest =>
      if is_closed_state (iceConnectionState e reported) then ([], e, true)
      else
        let '(tr, e', out) := sender_active mon e rest in
        (Sleep 10 :: tr, e', out)
  | TrackPoll state :: rest =>
      if mon then
        let '(polled, e1, mon') := monitor_video_track state e in
        let '(tr, e', out) := sender_active mon' e1 rest in
        ((polled ++ tr)%list, e', out)
      else sender_active false e rest
  end.

(** Lines 119-137. *)
Definition sender_prelude (env : Env) : list Call :=
  ((if video env then [AddTrack "video"; Log INFO "Added video track"] else []) ++
   (if audio env then [AddTrack "audio"; Log INFO "Added audio track"] else []) ++
   [CreateOffer; SetLocalDescription])%list.

(** Lines 141-148 and 152. *)
Definition sender_hello (env : Env) : list Call :=
  [Connect; Send (Token "sender"); Send (Description "offer" (local_sdp env));
   WaitRecv 30].

(** Lines 139-183: the body of the try statement with its except clause.
    The flag tells whether the body has been left. *)
Definition sender_body (env : Env) (sigs : list Signal)
  : list Call * Engine * bool :=
  if connects env then
    match wait_for (reply env) 30 with
    | TimedOut =>
        ((sender_hello env ++
          [Log ERROR "Timeout waiting for answer SDP"; WsClose])%list,
         new_pc, true)
    | Raised =>
        ((sender_hello env ++ [WsClose; Log ERROR "Sender connection error"])%list,
         new_pc, true)
    | Got message =>
        if accepts env message then
          let '(tr, e, out) := sender_active (video env) new_pc sigs in
          ((sender_hello env ++ [SetRemoteDescription message] ++
            (if video env then [StartMonitor] else []) ++ tr ++
            (if out then [WsClose] else []))%list,
           e, out)
        else
          ((sender_hello env ++ [WsClose; Log ERROR "Sender connection error"])%list,
           new_pc, true)
    end
  else ([Log ERROR "Sender connection error"], new_pc, true).

(** [run_sender], lines 113-187: the finally clause runs once the body is
    left. *)
Definition run_sender (env : Env) (sigs : list Signal)
  : list Call * Engine * Status :=
  let '(tr, e, out) := sender_body env sigs in
  if out then
    ((sender_prelude env ++ tr ++
      [PcClose; Log INFO "Sender connection closed"])%list,
     pc_close e, Returned)
  else ((sender_prelude env ++ tr)%list, e, Running).

(** ** The responder *)

(** What happens to a running receiver, in order. *)
Inductive RxSignal :=
| RxMainPoll (reported : IceState)   (* line 330 *)
| StreamEnded (frames : nat)         (* track.recv() raises MediaStreamError
                                        after [frames] frames, line 247 *)
| KeyPress (key : string)            (* on_key, line 258 *)
| IceChange (reported : IceState).   (* on_iceconnectionstatechange, line 301 *)

(** Lines 301-331 with the callbacks of lines 203-271. *)
Fixpoint receiver_active (save : bool) (e : Engine) (sigs : list RxSignal)
  : list Call * Engine * bool :=
  match sigs with
  | [] => ([], e, false)
  | RxMainPoll reported :: rest =>
      if is_closed_state (iceConnectionState e reported) then ([], e, true)
      else
        let '(tr, e', out) := receiver_active save e rest in
        (Sleep 10 :: tr, e', out)
  | StreamEnded frames :: rest =>
      let '(tr, e', out) := receiver_active save (pc_close e) rest in
      ((Log WARNING "Stream ended or connection closed" :: PcClose :: PltClose ::
        (if save && (0 <? frames)%nat then [WriterRelease] else []) ++ tr)%list,
       e', out)
  | KeyPress key :: rest =>
      if String.eqb key "q" then
        let '(tr, e', out) := receiver_active save (pc_close e) rest in
        (Log INFO "'q' pressed, closing window" :: PltClose :: PcClose :: tr,
         e', out)
      else receiver_active save e rest
  | IceChange reported :: rest =>
      if is_closed_state (iceConnectionState e reported) then
        let '(tr, e', out) := receiver_active save (pc_close e) rest in
        (Log WARNING "Connection closed by peer" :: PltClose :: PcClose :: tr,
         e', out)
      else receiver_active save e rest
  end.

(** Lines 275-282. *)
Definition receiver_hello : list Call :=
  [Connect; Send (Token "receiver"); Log INFO "Connected to signaling server";
   WaitRecv 30].

(** Lines 273-334. *)
Definition receiver_body (env : Env) (save : bool) (sigs : list RxSignal)
  : list Call * Engine * bool :=
  if connects env then
    match wait_for (reply env) 30 with
    | TimedOut =>
        ((receiver_hello ++
          [Log ERROR "Timeout waiting for offer SDP"; WsClose])%list,
         new_pc, true)
    | Raised =>
        ((receiver_hello ++ [WsClose; Log ERROR "Receiver error"])%list,
         new_pc, true)
    | Got message =>
        if accepts env message then
          let '(tr, e, out) := receiver_active save new_pc sigs in
          ((receiver_hello ++
            [SetRemoteDescription message; CreateAnswer; SetLocalDescription;
             Send (Description "answer" (local_sdp env));
             Log INFO "Sent answer SDP"] ++
            tr ++ (if out then [WsClose] else []))%list,
           e, out)
        else
          ((receiver_hello ++ [WsClose; Log ERROR "Receiver error"])%list,
           new_pc, true)
    end
  else ([Log ERROR "Receiver error"], new_pc, true).

(** [run_receiver], lines 189-339. *)
Definition run_receiver (env : Env) (save : bool) (sigs : list RxSignal)
  : list Call * Engine * Status :=
  let '(tr, e, out) := receiver_body env save sigs in
  if out then
    ((tr ++ [PcClose; PltClose; Log INFO "Receiver connection closed"])%list,
     pc_close e, Returned)
  else (tr, e, Running).

(** How often a call occurs in a trace. *)
Definition is_pc_close (c : Call) : bool :=
  match c with PcClose => true | _ => false end.

Definition is_ws_close (c : Call) : bool :=
  match c with WsClose => true | _ => false end.

Definition is_connect (c : Call) : bool :=
  match c with Connect => true | _ => false end.

Definition is_set_remote (c : Call) : bool :=
  match c with SetRemoteDescription _ => true | _ => false end.

Definition count (p : Call -> bool) (tr : list Call) : nat :=
  length (filter (fun c => p c = true) tr).

(** ** Sample surroundings *)

(** Nobody answers. *)
Definition quiet_env : Env :=
  {| video := true; audio := false; local_sdp := "v=0";
     connects := true; reply := Silent; accepts := fun _ => true |}.

(** A film is sent and the peer answers after two time units. *)
Definition film_env : Env :=
  {| video := true; audio := true; local_sdp := "v=0";
     connects := true; reply := Arrives 2 "answer"; accepts := fun _ => true |}.

End Orchestrator.

(* ===================================================================== *)
(** * Measures on broker traces *)
(* ===================================================================== *)

Module Tally.

Import Broker.

(** Line 83 executed for connection [c]. *)
Definition is_bind (c : Chan) (a : Action) : bool :=
  match a with Bind _ c' => bool_decide (c' = c) | _ => false end.

(** The server closes connection [c]. *)
Definition is_close (c : Chan) (a : Action) : bool :=
  match a with Close c' => bool_decide (c' = c) | _ => false end.

(** How many actions of a trace satisfy [p]. *)
Definition tally (p : Action -> bool) (tr : list Action) : nat :=
  length (filter (fun a => p a = true) tr).

Arguments tally : simpl never.

(** The receiver is bound while messages wait for it and its connection is
    gone already. *)
Definition late_receiver : World :=
  (run init [Recv 1 (Some "sender"); Recv 1 (Some "m1"); Recv 1 (Some "m2");
             Lost 2]).1.

End Tally.

(* ===================================================================== *)
(** * Display of the received video *)
(* ===================================================================== *)

Module Display.

(** A decoded frame: rows of pixels, a pixel being its channel values
    (three for "bgr24"). *)
Abbreviation Image := (list (list (list nat))).

(** [img[..., ::-1]], line 224: the last axis reversed. *)
Definition flip_channels (img : Image) : Image := map (map (@rev nat)) img.

(** [img.shape[:2]], line 228: rows, then pixels per row. *)
Definition shape2 (img : Image) : nat * nat :=
  (length img, length (default [] (head img))).

(** What [display_video] does to the video file and to the figure. *)
Inductive Draw :=
| VideoWriter (filename fourcc : string) (fps : nat) (size : nat * nat)
| Write (img : Image)              (* video_writer.write *)
| Imshow (img : Image)             (* ax.imshow *)
| SetData (img : Image)            (* img_display.set_data *)
| PltDraw                          (* plt.draw *)
| PltPause.                        (* plt.pause(0.001) *)

(** The two [nonlocal] variables of [display_video]: whether the image
    artist exists, and the frame size of the writer if there is one. *)
Record Screen := mkScreen {
  img_display : bool;
  video_writer : option (nat * nat)
}.

(** Lines 199 and 201. *)
Definition blank : Screen := {| img_display := false; video_writer := None |}.

(** Lines 222-246: one round of the loop, for the frame [img] given by
    [track.recv()]. *)
Definition display_frame (save_output : bool) (st : Screen) (img : Image)
  : Screen * list Draw :=
  let rgb_img := flip_channels img in
  let '(writer, opened) :=
    match video_writer st with
    | None =>
        if save_output then
          let '(height, width) := shape2 img in
          (Some (width, height),
           [VideoWriter "received_output.avi" "XVID" 20 (width, height)])
        else (None, [])
    | Some size => (Some size, [])
    end in
  let written :=
    if save_output && bool_decide (is_Some writer) then [Write img] else [] in
  let shown := if img_display st then [SetData rgb_img] else [Imshow rgb_img] in
  ({| img_display := true; video_writer := writer |},
   (opened ++ written ++ shown ++ [PltDraw; PltPause])%list).

(** Lines 220-246 over the frames the track delivers before it ends. *)
Fixpoint display_video (save_output : bool) (st : Screen) (frames : list Image)
  : Screen * list Draw :=
  match frames with
  | [] => (st, [])
  | img :: rest =>
      let '(st1, a1) := display_frame save_output st img in
      let '(st2, a2) := display_video save_output st1 rest in
      (st2, (a1 ++ a2)%list)
  end.

(** The frames handed to the writer, the writers opened, and the images
    put on the figure, in order. *)
Definition written_frame (d : Draw) : option Image :=
  match d with Write img => Some img | _ => None end.

Definition opened_size (d : Draw) : option (nat * nat) :=
  match d with VideoWriter _ _ _ size => Some size | _ => None end.

Definition shown_image (d : Draw) : option Image :=
  match d with Imshow img | SetData img => Some img | _ => None end.

Definition created_artist (d : Draw) : bool :=
  match d with Imshow _ => true | _ => false end.

Definition written (tr : list Draw) : list Image := omap written_frame tr.
Definition opened (tr : list Draw) : list (nat * nat) := omap opened_size tr.
Definition shown (tr : list Draw) : list Image := omap shown_image tr.

Arguments written : simpl never.
Arguments opened : simpl never.
Arguments shown : simpl never.

End Display.

(* ===================================================================== *)
(** * Measures on orchestrator runs *)
(* ===================================================================== *)

Module Session.

Import Orchestrator.

(** The negotiation goes through: the channel opens, a message arrives
    within the 30 of lines 152 and 282, and it is parsed and applied. *)
Definition negotiated (env : Env) : bool :=
  connects env &&
  match wait_for (reply env) 30 with
  | Got message => accepts env message
  | _ => false
  end.

(** What a call puts on the rendezvous channel. *)
Definition sent_payload (c : Call) : option Payload :=
  match c with Send p => Some p | _ => None end.

(** The payloads sent over the rendezvous channel, in order. *)
Definition sends (tr : list Call) : list Payload := omap sent_payload tr.

Arguments sends : simpl never.

Definition is_start_monitor (c : Call) : bool :=
  match c with StartMonitor => true | _ => false end.

Definition is_writer_release (c : Call) : bool :=
  match c with WriterRelease => true | _ => false end.

(** A poll or callback of the sender that shows neither a closed connection
    nor, where a monitor runs, an ended track. *)
Definition calm (monitored : bool) (s : Signal) : bool :=
  match s with
  | MainPoll reported => negb (is_closed_state reported)
  | TrackPoll Ended => negb monitored
  | TrackPoll Live => true
  end.

(** The key presses [on_key] reacts to. *)
Definition heeded (s : RxSignal) : bool :=
  match s with
  | KeyPress key => String.eqb key "q"
  | _ => true
  end.

(** The peer answers at once; the transport later fails without ever
    reporting "closed". *)
Definition stuck_env : Env :=
  {| video := false; audio := true; local_sdp := "v=0";
     connects := true; reply := Arrives 0 "sdp"; accepts := fun _ => true |}.

(** The reply is no valid description. *)
Definition garbled_env : Env :=
  {| video := true; audio := true; local_sdp := "v=0";
     connects := true; reply := Arrives 1 "{"; accepts := fun _ => false |}.

End Session.

Import Broker.

(* ===================================================================== *)
(** * Lemmas on the broker's step function *)
(* ===================================================================== *)

Lemma drain_open gone role c q :
  ws_send gone c = true ->
  drain gone role c q = (map (Drain role c) q, [], true).
Proof.
  intros Hs. induction q as [|m q IH]; simpl; [done|].
  by rewrite Hs, IH.
Qed.

Lemma drain_gone gone role c m q :
  ws_send gone c = false ->
  drain gone role c (m :: q) = ([SendFail c m], q, false).
Proof. intros Hs. simpl. by rewrite Hs. Qed.

Lemma ws_send_true gone c : ws_send gone c = true <-> c ∉ gone.
Proof. unfold ws_send. by rewrite bool_decide_eq_true. Qed.

Lemma ws_send_false gone c : ws_send gone c = false <-> c ∈ gone.
Proof.
  unfold ws_send. rewrite bool_decide_eq_false.
  split; [apply dec_stable | by intros H Hn].
Qed.

Lemma step_path w e : Path w e (step w e).1 (step w e).2.
Proof.
  destruct e as [c|c r]; simpl; [constructor|].
  destruct (task_of w c) as [|role|] eqn:Ht; [| |by constructor];
    unfold handler.
  - (* lines 74-88 *)
    unfold accept. destruct r as [role|]; [|by apply P_no_role].
    destruct (cl w !! role) as [x|] eqn:Hc.
    + simpl. destruct (mq w !! role) as [q|] eqn:Hq; [|by apply P_no_queue].
      destruct (ws_send (gone w) c) eqn:Hs.
      * rewrite drain_open by done. simpl.
        apply ws_send_true in Hs. eapply P_bind; eauto.
      * destruct q as [|m q].
        { simpl. replace [Bind role c] with (Bind role c :: map (Drain role c) []) by done.
          eapply P_bind; eauto. }
        rewrite drain_gone by done. simpl.
        apply ws_send_false in Hs. eapply P_bind_gone; eauto.
    + destruct (ws_send (gone w) c) eqn:Hs; simpl.
      * apply ws_send_true in Hs. by apply P_invalid.
      * apply ws_send_false in Hs. by apply P_invalid_gone.
  - (* lines 91-101 *)
    unfold relay. destruct r as [m|]; [|by apply P_closed].
    destruct (get_client (self w) (opposite role)) as [t|] eqn:Hg.
    + destruct (ws_send (gone w) t) eqn:Hs; simpl.
      * apply ws_send_true in Hs. by apply P_forward.
      * apply ws_send_false in Hs. by apply P_forward_gone.
    + destruct (mq w !! opposite role) as [q|] eqn:Hq; simpl.
      * by apply P_enqueue.
      * by apply P_enqueue_none.
Qed.

Lemma valid_opposite role : valid_role (opposite role).
Proof. unfold opposite, valid_role. case_decide; auto. Qed.

Lemma Inv_init : Inv init.
Proof.
  split.
  - intros R [-> | ->]; vm_compute; eauto.
  - intros R [-> | ->]; vm_compute; eauto.
  - intros R c [-> | ->]; vm_compute; discriminate.
  - intros R c [-> | ->]; vm_compute; discriminate.
Qed.

Lemma task_of_upd w s c t c' :
  task_of (upd w s c t) c' = if decide (c = c') then t else task_of w c'.
Proof.
  unfold task_of, upd. simpl. rewrite lookup_insert. by case_decide.
Qed.

Lemma slot_upd w s c t R : slot (upd w s c t) R = get_client s R.
Proof. done. Qed.

Lemma queue_upd w s c t R : queue (upd w s c t) R = get_queue s R.
Proof. done. Qed.

Lemma get_client_set_client s role v R :
  get_client (set_client s role v) R =
  if decide (role = R) then v else get_client s R.
Proof.
  unfold get_client. simpl. rewrite lookup_insert. by case_decide.
Qed.

Lemma get_client_set_queue s role q R :
  get_client (set_queue s role q) R = get_client s R.
Proof. done. Qed.

Lemma get_queue_set_queue s role q R :
  get_queue (set_queue s role q) R =
  if decide (role = R) then q else get_queue s R.
Proof.
  unfold get_queue. simpl. rewrite lookup_insert. by case_decide.
Qed.

Lemma get_queue_set_client s role v R :
  get_queue (set_client s role v) R = get_queue s R.
Proof. done. Qed.

Lemma get_queue_Some s R q : message_queue s !! R = Some q -> get_queue s R = q.
Proof. unfold get_queue. by intros ->. Qed.

Lemma slot_self w R : get_client (self w) R = slot w R.
Proof. done. Qed.

Lemma queue_self w R : get_queue (self w) R = queue w R.
Proof. done. Qed.

(** Normal form of slots, queues and tasks after a step. *)
Ltac after_step :=
  repeat (progress rewrite ?task_of_upd, ?slot_upd, ?queue_upd,
    ?get_client_set_client, ?get_client_set_queue, ?get_queue_set_queue,
    ?get_queue_set_client, ?slot_self, ?queue_self in * ).

Lemma Path_Inv w e w' acts : Path w e w' acts -> Inv w -> Inv w'.
Proof.
  intros HP [Hk Hq Hs He].
  destruct HP; split; try done; intros R; intros; after_step.
  all: try (simpl; rewrite ?lookup_insert; repeat case_decide; eauto; fail).
  all: repeat case_decide; simplify_eq; eauto.
  all: try match goal with
           | H : slot _ _ = Some ?c |- _ =>
               pose proof (Hs _ _ ltac:(eassumption) H); try congruence
           end.
  all: try (exfalso;
            match goal with
            | H : mq _ !! ?R = None |- _ =>
                destruct (Hq R) as [? ?]; [auto using valid_opposite|congruence]
            end).
  all: eapply He; eauto.
Qed.

Lemma step_Inv w e : Inv w -> Inv (step w e).1.
Proof. apply (Path_Inv w e _ _ (step_path w e)). Qed.

Lemma run_Inv w es : Inv w -> Inv (run w es).1.
Proof.
  revert w. induction es as [|e es IH]; intros w Hw; simpl; [done|].
  pose proof (step_Inv w e Hw) as H1.
  destruct (step w e) as [w1 a1]. specialize (IH w1 H1).
  by destruct (run w1 es).
Qed.

Lemma reachable_Inv w : reachable w -> Inv w.
Proof. intros [es <-]. apply run_Inv, Inv_init. Qed.

Lemma delivered_cons R a tr :
  delivered R (a :: tr) =
  match delivered_msg R a with Some m => m :: delivered R tr | None => delivered R tr end.
Proof. done. Qed.

Lemma arrivals_cons R a tr :
  arrivals R (a :: tr) =
  match arrived R a with Some m => m :: arrivals R tr | None => arrivals R tr end.
Proof. done. Qed.

Lemma delivered_app R a b : delivered R (a ++ b) = (delivered R a ++ delivered R b)%list.
Proof. apply omap_app. Qed.

Lemma arrivals_app R a b : arrivals R (a ++ b) = (arrivals R a ++ arrivals R b)%list.
Proof. apply omap_app. Qed.

Lemma delivered_drain R role c q :
  delivered R (map (Drain role c) q) = if decide (role = R) then q else [].
Proof.
  induction q as [|m q IH]; simpl.
  - by case_decide.
  - rewrite delivered_cons, IH. simpl. by case_decide.
Qed.

Lemma arrivals_drain R role c q : arrivals R (map (Drain role c) q) = [].
Proof. induction q as [|m q IH]; simpl; [done|]. by rewrite arrivals_cons, IH. Qed.

Lemma lossless_app a b : lossless (a ++ b) <-> lossless a /\ lossless b.
Proof. apply Forall_app. Qed.

Ltac trace_norm :=
  rewrite ?delivered_cons, ?arrivals_cons, ?delivered_drain, ?arrivals_drain;
  cbn [delivered_msg arrived];
  change (delivered ?R []) with (@nil string);
  change (arrivals ?R []) with (@nil string).

Lemma queue_Some w R q : mq w !! R = Some q -> queue w R = q.
Proof. apply get_queue_Some. Qed.

Ltac lossy Hl :=
  exfalso; unfold lossless in Hl;
  repeat (apply Forall_cons in Hl as [? Hl]); simpl in *; congruence.

Ltac no_queue Hq :=
  exfalso;
  match goal with
  | H : mq _ !! ?R = None |- _ =>
      destruct (Hq R) as [? ?]; [auto using valid_opposite|congruence]
  end.

Lemma step_order_eq w e w' acts R :
  Path w e w' acts -> Inv w -> valid_role R -> lossless acts ->
  (delivered R acts ++ queue w' R = queue w R ++ arrivals R acts)%list.
Proof.
  intros HP [Hk Hq Hs He] HR Hl.
  destruct HP; try (by lossy Hl); try (by no_queue Hq);
    after_step; trace_norm; rewrite ?app_nil_r; try done.
  all: repeat case_decide; simplify_eq; rewrite ?app_nil_r; try done.
  - symmetry. by apply queue_Some.
  - erewrite He by (eauto using valid_opposite). done.
  - erewrite (queue_Some w) by done. done.
Qed.

Lemma step_order_sub w e w' acts R :
  Path w e w' acts -> Inv w -> valid_role R ->
  (delivered R acts ++ queue w' R)%list `sublist_of` (queue w R ++ arrivals R acts)%list.
Proof.
  intros HP Hw HR.
  destruct (decide (Forall (fun a => send_failed a = false) acts)) as [Hl|Hl].
  { by rewrite (step_order_eq w e w' acts R). }
  destruct Hw as [Hk Hq Hs He].
  destruct HP; try (exfalso; apply Hl; repeat constructor; fail); 
    after_step; trace_norm; rewrite ?app_nil_r.
  all: repeat case_decide; simplify_eq; rewrite ?app_nil_r; try done.
  - by erewrite (queue_Some w) by done.
  - erewrite (queue_Some w) by done. by apply sublist_cons.
  - by apply sublist_inserts_r.
Qed.

Lemma run_order_sub w es R :
  Inv w -> valid_role R ->
  (delivered R (run w es).2 ++ queue (run w es).1 R)%list
    `sublist_of` (queue w R ++ arrivals R (run w es).2)%list.
Proof.
  intros Hw HR. revert w Hw. induction es as [|e es IH]; intros w Hw; simpl.
  - by rewrite app_nil_r.
  - pose proof (step_path w e) as HP. pose proof (step_Inv w e Hw) as Hw1.
    pose proof (step_order_sub _ _ _ _ R HP Hw HR) as H1.
    destruct (step w e) as [w1 a1]. simpl in *.
    specialize (IH w1 Hw1). destruct (run w1 es) as [w2 a2]. simpl in *.
    rewrite delivered_app, arrivals_app, <-app_assoc.
    etrans; [apply sublist_app; [reflexivity | apply IH]|].
    rewrite !app_assoc. by apply sublist_app.
Qed.

Lemma run_order_eq w es R :
  Inv w -> valid_role R -> lossless (run w es).2 ->
  (delivered R (run w es).2 ++ queue (run w es).1 R =
   queue w R ++ arrivals R (run w es).2)%list.
Proof.
  intros Hw HR. revert w Hw. induction es as [|e es IH]; intros w Hw; simpl.
  - by rewrite app_nil_r.
  - pose proof (step_path w e) as HP. pose proof (step_Inv w e Hw) as Hw1.
    pose proof (step_order_eq _ _ _ _ R HP Hw HR) as H1.
    destruct (step w e) as [w1 a1]. simpl in *.
    specialize (IH w1 Hw1). destruct (run w1 es) as [w2 a2]. simpl in *.
    intros [Hl1 Hl2]%lossless_app.
    rewrite delivered_app, arrivals_app, <-app_assoc, IH by done.
    by rewrite !app_assoc, H1.
Qed.

Lemma sent_on_delivered R c tr : sent_on R c tr `sublist_of` delivered R tr.
Proof.
  unfold sent_on, delivered. induction tr as [|a tr IH]; [done|].
  change (omap ?f (a :: tr)) with
    (match f a with Some m => m :: omap f tr | None => omap f tr end).
  destruct a; simpl; try done.
  - destruct (decide (role = R /\ c0 = c)) as [[-> ->]|Hn].
    + rewrite decide_True by done. by apply sublist_skip.
    + case_decide; [by apply sublist_cons|done].
  - destruct (decide (target = R /\ c0 = c)) as [[-> ->]|Hn].
    + rewrite decide_True by done. by apply sublist_skip.
    + case_decide; [by apply sublist_cons|done].
Qed.

Lemma step_prefix w e w' acts R :
  Path w e w' acts -> (forall c, Bind R c ∉ acts) ->
  queue w R `prefix_of` queue w' R.
Proof.
  intros HP Hb.
  destruct HP; after_step; try done; repeat case_decide; simplify_eq; try done.
  - exfalso. eapply Hb. by left.
  - exfalso. eapply Hb. by left.
  - erewrite (queue_Some w) by done. by apply prefix_app_r.
Qed.

Lemma step_drain_bound w e w' acts R c m :
  Path w e w' acts -> Drain R c m ∈ acts -> exists rest, acts = Bind R c :: rest.
Proof.
  intros HP Hin.
  destruct HP;
    try (exfalso; repeat (apply elem_of_cons in Hin as [Hin|Hin]; [done|]);
         by apply elem_of_nil in Hin).
  apply elem_of_cons in Hin as [Hin|Hin]; [done|].
  apply list_elem_of_fmap in Hin as (x & Hx & _). simplify_eq. eauto.
Qed.

Lemma enqueue_step w c role m q :
  task_of w c = Relay role -> slot w (opposite role) = None ->
  mq w !! opposite role = Some q ->
  step w (Recv c (Some m)) =
    (upd w (set_queue (self w) (opposite role) (q ++ [m])%list) c (Relay role),
     [Arrive (opposite role) m; Enqueue (opposite role) m]).
Proof.
  intros Ht Hs Hq. unfold step, handler, relay. rewrite Ht.
  change (get_client (self w) (opposite role)) with (slot w (opposite role)).
  by rewrite Hs, Hq.
Qed.

Lemma bind_step w c R q :
  task_of w c = AwaitRole -> is_Some (cl w !! R) ->
  mq w !! R = Some q -> c ∉ gone w ->
  step w (Recv c (Some R)) =
    (upd w (set_queue (set_client (self w) R (Some c)) R []) c (Relay R),
     Bind R c :: map (Drain R c) q).
Proof.
  intros Ht [x Hx] Hq Hg. unfold step, handler, accept. rewrite Ht, Hx. simpl.
  rewrite Hq, drain_open by by apply ws_send_true. done.
Qed.

(* ===================================================================== *)
(** * Properties of the broker *)
(* ===================================================================== *)

(** C1 holds in [Broker], where a drain is not interrupted, for a
    connection that is still open when it binds.  (1) A message that a bound
    connection sends while the slot of the opposite role [R] is empty is
    appended to the queue of [R], and nothing is sent.  (2) When a connection
    [c] that is still open declares role [R], the slot is bound and then the
    whole queue is sent to [c], oldest first: the handler of [c] is in its
    relay loop only afterwards, with the queue of [R] empty.  (3) In any
    step, a message is taken from the queue of [R] only by a step that
    starts by binding the slot of [R]; any other step leaves the queue of
    [R] a prefix of what it becomes. *)
Lemma pending_queue_fifo (w : World) (R : string) :
  (forall c role m q,
      task_of w c = Relay role -> opposite role = R ->
      slot w R = None -> mq w !! R = Some q ->
      step w (Recv c (Some m)) =
        (upd w (set_queue (self w) R (q ++ [m])%list) c (Relay role),
         [Arrive R m; Enqueue R m])) /\
  (forall c q,
      task_of w c = AwaitRole -> is_Some (cl w !! R) ->
      mq w !! R = Some q -> c ∉ gone w ->
      step w (Recv c (Some R)) =
        (upd w (set_queue (set_client (self w) R (Some c)) R []) c (Relay R),
         Bind R c :: map (Drain R c) q)) /\
  (forall e,
      (forall c m, Drain R c m ∈ (step w e).2 ->
                   exists rest, (step w e).2 = Bind R c :: rest) /\
      ((forall c, Bind R c ∉ (step w e).2) ->
       queue w R `prefix_of` queue (step w e).1 R)).
Proof.
  split; [|split].
  - intros c role m q Ht <- Hs Hq. by apply enqueue_step.
  - intros c q. apply bind_step.
  - intros e. split.
    + intros c m.
      apply step_drain_bound with (w := w) (e := e) (w' := (step w e).1).
      apply step_path.
    + apply step_prefix with (e := e) (acts := (step w e).2). apply step_path.
Qed.

(** C2 holds in [Broker], where a drain is not interrupted.  In every run,
    for each of the two roles [R]: what has been sent to the slot of [R],
    followed by what still waits in the queue of [R], is in the order of
    arrival (a subsequence of the messages that arrived for [R]); so is what
    any single connection got as holder of that slot.  When no send of the
    run raised, nothing is missing either: deliveries followed by the queue
    are exactly the arrivals. *)
Lemma delivery_preserves_arrival_order (es : list Event) (R : string) :
  valid_role R ->
  (delivered R (run init es).2 ++ queue (run init es).1 R)%list
     `sublist_of` arrivals R (run init es).2 /\
  (forall c, sent_on R c (run init es).2 `sublist_of` arrivals R (run init es).2) /\
  (lossless (run init es).2 ->
   (delivered R (run init es).2 ++ queue (run init es).1 R)%list
     = arrivals R (run init es).2).
Proof.
  intros HR.
  assert (Hsub := run_order_sub init es R Inv_init HR).
  assert (queue init R = []) as Hq0 by (by destruct HR as [-> | ->]).
  rewrite Hq0 in Hsub. simpl in Hsub. split; [done|split].
  - intros c. etrans; [apply sent_on_delivered|].
    etrans; [|exact Hsub]. by apply sublist_inserts_r.
  - intros Hl. by rewrite (run_order_eq init es R Inv_init HR Hl), Hq0.
Qed.

(** C5 holds where the role is no key of [self.clients] and the connection
    is still open: the error reply is sent, the connection is closed, and
    the dictionaries are untouched. *)
Lemma invalid_role_rejected w c role :
  task_of w c = AwaitRole -> cl w !! role = None -> c ∉ gone w ->
  step w (Recv c (Some role)) =
    (upd w (self w) c Finished, [Reply c "Invalid role"; Close c]).
Proof.
  intros Ht Hc Hg. unfold step, handler, accept. rewrite Ht, Hc.
  by rewrite (proj2 (ws_send_true _ _) Hg).
Qed.

(** C5, where the code departs from it.  Connection 1 declares "foo" and is
    gone before the error reply can be written: the except clause stores
    "foo" as a key of [self.clients].  Connection 2, open, then declares
    "foo": it gets no error reply, slot "foo" is bound to it, and its handler
    dies on the missing queue. *)
Theorem invalid_role_becomes_key :
  (run init [Lost 1; Recv 1 (Some "foo"); Recv 2 (Some "foo")]).2
    = [SendFail 1 "Invalid role"; Unbind "foo"; Close 1;
       Bind "foo" 2; Escape KeyError; Close 2] /\
  cl (run init [Lost 1; Recv 1 (Some "foo")]).1 !! "foo" = Some None /\
  cl (run init [Lost 1; Recv 1 (Some "foo"); Recv 2 (Some "foo")]).1 !! "foo"
    = Some (Some 2).
Proof. repeat split; reflexivity. Qed.

(** C6 holds where the closure is seen by the connection's own recv.  When
    the recv of a connection in its relay loop as [role] raises
    ConnectionClosed, the slot of [role] is set to empty and the handler
    ends; every other slot, both queues and every other task are as before,
    no other connection is marked gone, and the only connection closed is
    this one. *)
Lemma close_unbinds_only_own_slot (w : World) (c : Chan) (role : string) :
  task_of w c = Relay role ->
  let w' := (step w (Recv c None)).1 in
  (step w (Recv c None)).2 = [Unbind role; Close c] /\
  slot w' role = None /\
  task_of w' c = Finished /\
  (forall R, R <> role -> cl w' !! R = cl w !! R) /\
  mq w' = mq w /\
  (forall c', c' <> c -> task_of w' c' = task_of w c') /\
  gone w' = gone w.
Proof.
  intros Ht w'. subst w'.
  assert (step w (Recv c None) =
          (upd w (set_client (self w) role None) c Finished,
           [Unbind role; Close c])) as ->.
  { unfold step, handler, relay. by rewrite Ht. }
  simpl.
  split; [done|]. split; [|split; [|split; [|split; [done|split; [|done]]]]].
  - after_step. by rewrite decide_True.
  - after_step. by rewrite decide_True.
  - intros R HR. by rewrite lookup_insert_ne.
  - intros c' Hc. after_step. by rewrite decide_False.
Qed.

Lemma close_unbinds_only_own_slot_paired :
  (step paired (Recv 2 None)).2 = [Unbind "receiver"; Close 2] /\
  slot (step paired (Recv 2 None)).1 "receiver" = None /\
  slot (step paired (Recv 2 None)).1 "sender" = Some 1.
Proof. repeat split; reflexivity. Qed.

(** C6, where the code departs from it.  The except clause also catches the
    ConnectionClosed raised by the send to the other connection (line 97).
    Sender 1 and receiver 2 are bound and the far end of 2 goes away.  If a
    message from 1 arrives before the handler of 2 is resumed, it is the
    handler of 1 that ends: the slot of "sender" is emptied and connection 1
    is closed, while the slot of "receiver" still holds the gone connection
    until its own recv raises. *)
Theorem forward_failure_ends_forwarder :
  (run init [Recv 1 (Some "sender"); Recv 2 (Some "receiver"); Lost 2;
             Recv 1 (Some "offer")]).2
    = [Bind "sender" 1; Bind "receiver" 2;
       Arrive "receiver" "offer"; SendFail 2 "offer"; Unbind "sender"; Close 1] /\
  slot (run init [Recv 1 (Some "sender"); Recv 2 (Some "receiver"); Lost 2;
                  Recv 1 (Some "offer")]).1 "sender" = None /\
  task_of (run init [Recv 1 (Some "sender"); Recv 2 (Some "receiver"); Lost 2;
                     Recv 1 (Some "offer")]).1 1 = Finished /\
  slot (run init [Recv 1 (Some "sender"); Recv 2 (Some "receiver"); Lost 2;
                  Recv 1 (Some "offer")]).1 "receiver" = Some 2.
Proof. repeat split; reflexivity. Qed.


(* ===================================================================== *)
(** * The handler with its drain sends as suspension points *)
(* ===================================================================== *)

Section StepwiseFacts.

Import Stepwise.

Lemma stepwise_path w e : Path w e (step w e).1 (step w e).2.
Proof.
  destruct e as [c|c r|c ok]; simpl; [constructor| |]; unfold resume.
  - destruct (task_of w c) as [[|role|]|role] eqn:Ht; simpl.
    + unfold accept. destruct r as [role|]; [|by apply S_no_role].
      destruct (cl w !! role) as [x|] eqn:Hc.
      * unfold drain_round. simpl.
        destruct (mq w !! role) as [[|m q]|] eqn:Hq; simpl.
        -- by apply S_bind_empty.
        -- destruct (ws_send (gone w) c) eqn:Hs; simpl.
           ++ apply ws_send_true in Hs. by apply S_bind_send.
           ++ apply ws_send_false in Hs. by apply S_bind_fail.
        -- by apply S_bind_no_queue.
      * destruct (ws_send (gone w) c) eqn:Hs; simpl.
        -- apply ws_send_true in Hs. by apply S_invalid.
        -- apply ws_send_false in Hs. by apply S_invalid_gone.
    + unfold relay. destruct r as [m|]; [|by apply S_closed].
      destruct (get_client (self w) (opposite role)) as [t|] eqn:Hg.
      * destruct (ws_send (gone w) t) eqn:Hs; simpl.
        -- apply ws_send_true in Hs. by apply S_forward.
        -- apply ws_send_false in Hs. by apply S_forward_gone.
      * destruct (mq w !! opposite role) as [q|] eqn:Hq; simpl.
        -- by apply S_enqueue.
        -- by apply S_enqueue_none.
    + apply S_recv_idle. by left.
    + apply S_recv_idle. right. eauto.
  - destruct (task_of w c) as [t|role] eqn:Ht; simpl.
    + destruct t; by eapply S_sent_idle.
    + destruct ok; simpl; [|by apply S_drain_raise].
      unfold drain_round.
      destruct (mq w !! role) as [[|m q]|] eqn:Hq; simpl.
      * by eapply S_drain_done.
      * destruct (ws_send (gone w) c) eqn:Hs; simpl.
        -- apply ws_send_true in Hs. by eapply S_drain_send.
        -- apply ws_send_false in Hs. by eapply S_drain_fail.
      * by eapply S_drain_no_queue.
Qed.

Lemma stepwise_task_of_upd w s c t c' :
  task_of (upd w s c t) c' = if decide (c = c') then t else task_of w c'.
Proof.
  unfold task_of, upd. simpl. rewrite lookup_insert. by case_decide.
Qed.

Lemma stepwise_slot_upd w s c t R : slot (upd w s c t) R = get_client s R.
Proof. done. Qed.

Lemma stepwise_queue_upd w s c t R : queue (upd w s c t) R = get_queue s R.
Proof. done. Qed.

Lemma stepwise_slot_self w R : get_client (self w) R = slot w R.
Proof. done. Qed.

Lemma stepwise_queue_self w R : get_queue (self w) R = queue w R.
Proof. done. Qed.

Lemma stepwise_queue_Some w R q : mq w !! R = Some q -> queue w R = q.
Proof. apply get_queue_Some. Qed.

Ltac after_round :=
  repeat (progress rewrite ?stepwise_task_of_upd, ?stepwise_slot_upd,
    ?stepwise_queue_upd, ?get_client_set_client, ?get_client_set_queue,
    ?get_queue_set_queue, ?get_queue_set_client, ?stepwise_slot_self,
    ?stepwise_queue_self in * ).

Lemma stepwise_Inv_init : Inv init.
Proof.
  split.
  - intros R [-> | ->]; vm_compute; eauto.
  - intros R [-> | ->]; vm_compute; eauto.
  - intros R c [-> | ->]; vm_compute; discriminate.
Qed.

Lemma stepwise_Path_Inv w e w' acts : Path w e w' acts -> Inv w -> Inv w'.
Proof.
  intros HP [Hk Hq Hs].
  destruct HP; split; try done; intros R; intros; after_round.
  all: try (simpl; rewrite ?lookup_insert; repeat case_decide; eauto; fail).
  all: repeat case_decide; simplify_eq; eauto.
  all: try (exfalso;
            match goal with
            | H : mq _ !! ?R = None |- _ =>
                destruct (Hq R) as [? ?]; [auto using valid_opposite|congruence]
            end).
  all: try match goal with
           | H : slot _ ?R = Some ?c |- _ =>
               destruct (Hs R c ltac:(assumption) H) as [Ht|[Ht He]];
               try congruence
           end.
  all: try match goal with
           | H : mq _ !! ?R = Some _ |- _ =>
               apply stepwise_queue_Some in H
           end.
  all: try match goal with
           | H1 : task_of ?w ?c = _, H2 : task_of ?w ?c = _ |- _ =>
               rewrite H1 in H2
           end.
  all: try (simplify_eq; eauto; fail).
  congruence.
Qed.

Lemma stepwise_step_Inv w e : Inv w -> Inv (step w e).1.
Proof. apply (stepwise_Path_Inv w e _ _ (stepwise_path w e)). Qed.

Lemma stepwise_run_Inv w es : Inv w -> Inv (run w es).1.
Proof.
  revert w. induction es as [|e es IH]; intros w Hw; simpl; [done|].
  pose proof (stepwise_step_Inv w e Hw) as H1.
  destruct (step w e) as [w1 a1]. specialize (IH w1 H1).
  by destruct (run w1 es).
Qed.

Lemma stepwise_reachable_Inv w : reachable w -> Inv w.
Proof. intros [es <-]. apply stepwise_run_Inv, stepwise_Inv_init. Qed.

(** Every send of a step is issued on the connection of the handler that
    runs, or on the connection found in the slot of a role; nothing has been
    closed in the step before it, and it goes through exactly when the far
    end is still there. *)
Lemma attempts_of_path w e w' acts pre a post c :
  Path w e w' acts -> acts = (pre ++ a :: post)%list -> attempts a = Some c ->
  (forall c', Close c' ∉ pre) /\
  (sends_to a = Some c <-> c ∉ gone w) /\
  (task_of w c = At AwaitRole \/ (exists role, task_of w c = Draining role) \/
   (exists R, valid_role R /\ slot w R = Some c)).
Proof.
  intros HP Hacts Ha.
  destruct HP;
    repeat match goal with
           | H : _ = (?p ++ _ :: _)%list |- _ => destruct p; simplify_eq/=
           end.
  all: (split; [|split]).
  all: try (intros c' Hin;
            repeat (apply elem_of_cons in Hin as [?|Hin]; [done|]);
            by apply elem_of_nil in Hin).
  all: try (split; [done|]; intros Hn; by exfalso).
  all: try (split; [done|]; by intros _).
  all: eauto 6 using valid_opposite.
Qed.

(** ** [Broker] is the uninterrupted schedule *)

Lemma stepwise_run_app w es1 es2 :
  run w (es1 ++ es2) =
    ((run (run w es1).1 es2).1, ((run w es1).2 ++ (run (run w es1).1 es2).2)%list).
Proof.
  revert w. induction es1 as [|e es1 IH]; intros w; simpl.
  - by destruct (run w es2).
  - destruct (step w e) as [w1 a1]. rewrite IH.
    destruct (run w1 es1) as [w2 a2]. simpl.
    destruct (run w2 es2) as [w3 a3]. simpl. by rewrite app_assoc.
Qed.

Lemma task_of_embed w c : task_of (embed w) c = At (Broker.task_of w c).
Proof.
  unfold task_of, Broker.task_of, embed. simpl. rewrite lookup_fmap.
  by destruct (Broker.tasks w !! c).
Qed.

Lemma set_queue_set_queue s role q1 q2 :
  set_queue (set_queue s role q1) role q2 = set_queue s role q2.
Proof. unfold set_queue. simpl. by rewrite insert_insert_eq. Qed.

Lemma set_queue_id s role q :
  message_queue s !! role = Some q -> set_queue s role q = s.
Proof.
  intros Hq. destruct s as [cs qs]. unfold set_queue. simpl in *.
  by rewrite insert_id.
Qed.

Lemma self_upd w s c t : self (upd w s c t) = s.
Proof. done. Qed.

Lemma upd_upd w s1 c t1 s2 t2 : upd (upd w s1 c t1) s2 c t2 = upd w s2 c t2.
Proof. unfold upd. simpl. by rewrite insert_insert_eq. Qed.

(** A handler in its drain loop that is resumed again and again, with its
    connection open, sends the whole queue in order and ends in its relay
    loop with the queue empty. *)
Lemma drain_to_end q w c role :
  task_of w c = Draining role -> mq w !! role = Some q -> c ∉ gone w ->
  run w (replicate (S (length q)) (Sent c true)) =
    (upd w (set_queue (self w) role []) c (At (Relay role)),
     map (Drain role c) q).
Proof.
  revert w. induction q as [|m q IH]; intros w Ht Hq Hg.
  - simpl. unfold resume. rewrite Ht. simpl. unfold drain_round. rewrite Hq.
    simpl. by rewrite set_queue_id.
  - change (replicate (S (length (m :: q))) (Sent c true))
      with (Sent c true :: replicate (S (length q)) (Sent c true)).
    cbn [run step]. unfold resume. rewrite Ht. cbn [handler].
    unfold drain_round. rewrite Hq.
    rewrite (proj2 (ws_send_true _ _) Hg). cbn [settle].
    rewrite IH.
    + by rewrite upd_upd, self_upd, set_queue_set_queue.
    + by rewrite stepwise_task_of_upd, decide_True.
    + simpl. by rewrite lookup_insert_eq.
    + done.
Qed.

Lemma idle_sends w c t n :
  task_of w c = At t -> run w (replicate n (Sent c true)) = (w, []).
Proof.
  intros Ht. induction n as [|n IH]; [done|].
  simpl. unfold resume. rewrite Ht.
  assert (handler (gone w) c (At t) (Written true) (self w) = None) as ->
    by by destruct t.
  by rewrite IH.
Qed.

Lemma settle_lift w c res :
  settle (embed w) c (lift res) =
    (embed (Broker.settle w c res).1, (Broker.settle w c res).2).
Proof.
  destruct res as [[s acts] o]. destruct o; simpl;
    unfold upd, embed; simpl; by rewrite fmap_insert.
Qed.

Lemma uninterrupted_step_run w e :
  run (embed w) (uninterrupted_step w e) =
    (embed (Broker.step w e).1, (Broker.step w e).2).
Proof.
  destruct e as [c|c r]; [done|].
  cbn [uninterrupted_step run step Broker.step]. unfold resume.
  rewrite task_of_embed.
  destruct (Broker.task_of w c) as [|role|] eqn:Ht; cbn [handler Broker.handler].
  - unfold accept, Broker.accept. cbn [self gone embed].
    destruct r as [role|];
      [|rewrite (settle_lift w c); cbn [run]; by rewrite app_nil_r].
    destruct (Broker.cl w !! role) as [x|] eqn:Hc.
    + unfold drain_round, Broker.queue, get_queue.
      cbn [message_queue set_client].
      destruct (Broker.mq w !! role) as [[|m q]|] eqn:Hq; cbn [default id length].
      * simpl. unfold upd, embed. simpl.
        rewrite fmap_insert, set_queue_id; done.
      * destruct (ws_send (Broker.gone w) c) eqn:Hs.
        -- rewrite drain_open by done. cbn [settle lift].
           rewrite drain_to_end with (role := role).
           ++ simpl. unfold upd, embed. simpl.
              by rewrite fmap_insert, insert_insert_eq, set_queue_set_queue.
           ++ by rewrite stepwise_task_of_upd, decide_True.
           ++ simpl. by rewrite lookup_insert_eq.
           ++ by apply ws_send_true.
        -- rewrite drain_gone by done. cbn [settle lift on_connection_closed].
           rewrite idle_sends with (t := Finished).
           ++ simpl. unfold upd, embed. simpl. by rewrite fmap_insert.
           ++ by rewrite stepwise_task_of_upd, decide_True.
      * simpl. unfold upd, embed. simpl. by rewrite fmap_insert.
    + destruct (ws_send (Broker.gone w) c) eqn:Hs;
        cbn [settle lift on_connection_closed Broker.settle].
      * rewrite idle_sends with (t := Finished).
        -- simpl. unfold upd, embed. simpl. by rewrite fmap_insert.
        -- by rewrite stepwise_task_of_upd, decide_True.
      * rewrite idle_sends with (t := Finished).
        -- simpl. unfold upd, embed. simpl. by rewrite fmap_insert.
        -- by rewrite stepwise_task_of_upd, decide_True.
  - rewrite (settle_lift w c). cbn [run]. by rewrite app_nil_r.
  - done.
Qed.

(** Every run of [Broker] is the run, with the same actions, of the
    schedule that does not interrupt a drain. *)
Lemma uninterrupted_run w es :
  run (embed w) (uninterrupted w es) =
    (embed (Broker.run w es).1, (Broker.run w es).2).
Proof.
  revert w. induction es as [|e es IH]; intros w; [done|].
  cbn [uninterrupted Broker.run].
  rewrite stepwise_run_app, uninterrupted_step_run.
  destruct (Broker.step w e) as [w1 a1]. cbn [fst snd].
  rewrite IH. by destruct (Broker.run w1 es).
Qed.

Lemma embed_init : embed Broker.init = init.
Proof. unfold embed, init. simpl. by rewrite fmap_empty. Qed.

(** C2 holds on the schedules that do not interrupt a drain: there, what
    has been sent to the slot of a role, followed by what still waits in
    its queue, is in the order of arrival, and is all that arrived when no
    send raised. *)
Lemma uninterrupted_order (es : list Broker.Event) (R : string) :
  valid_role R ->
  (delivered R (run init (uninterrupted Broker.init es)).2 ++
   queue (run init (uninterrupted Broker.init es)).1 R)%list
    `sublist_of` arrivals R (run init (uninterrupted Broker.init es)).2 /\
  (lossless (run init (uninterrupted Broker.init es)).2 ->
   (delivered R (run init (uninterrupted Broker.init es)).2 ++
    queue (run init (uninterrupted Broker.init es)).1 R)%list
     = arrivals R (run init (uninterrupted Broker.init es)).2).
Proof.
  intros HR. rewrite <-embed_init, uninterrupted_run. cbn [fst snd].
  destruct (delivery_preserves_arrival_order es R HR) as (Hsub & _ & Heq).
  by split.
Qed.

(** C1, where the code departs from it.  Two messages wait for the
    receiver.  Connection 2 declares "receiver" with its far end gone
    already: line 83 binds it, [pop(0)] takes "offer" out of the queue, and
    the send raises.  The except clause empties the slot; "offer" is in no
    queue any more.  Connection 3, open, then binds and is sent "candidate"
    only: of the two messages queued while the slot was unbound, the first
    reaches no connection. *)
Theorem failed_drain_loses_queued_message :
  (run init dead_binder).2
    = [Bind "sender" 1;
       Arrive "receiver" "offer"; Enqueue "receiver" "offer";
       Arrive "receiver" "candidate"; Enqueue "receiver" "candidate";
       Bind "receiver" 2; SendFail 2 "offer"; Unbind "receiver"; Close 2;
       Bind "receiver" 3; Drain "receiver" 3 "candidate"] /\
  arrivals "receiver" (run init dead_binder).2 = ["offer"; "candidate"] /\
  delivered "receiver" (run init dead_binder).2 = ["candidate"] /\
  queue (run init dead_binder).1 "receiver" = [] /\
  slot (run init dead_binder).1 "receiver" = Some 3 /\
  task_of (run init dead_binder).1 3 = At (Relay "receiver").
Proof. repeat split; reflexivity. Qed.

(** C2, where the code departs from it.  "offer" and "candidate" wait for
    the receiver.  Connection 2 binds the slot and is sent "offer"; while
    that send is pending, "late" arrives from the sender, finds the slot
    bound and is forwarded at once; only then does the drain loop send
    "candidate".  Every connection is open and no send raises, yet
    connection 2 gets "late" before "candidate". *)
Theorem forward_overtakes_drain :
  (run init overtaking).2
    = [Bind "sender" 1;
       Arrive "receiver" "offer"; Enqueue "receiver" "offer";
       Arrive "receiver" "candidate"; Enqueue "receiver" "candidate";
       Bind "receiver" 2; Drain "receiver" 2 "offer";
       Arrive "receiver" "late"; Forward "receiver" 2 "late";
       Drain "receiver" 2 "candidate"] /\
  arrivals "receiver" (run init overtaking).2 = ["offer"; "candidate"; "late"] /\
  sent_on "receiver" 2 (run init overtaking).2 = ["offer"; "late"; "candidate"] /\
  lossless (run init overtaking).2 /\
  gone (run init overtaking).1 = ∅ /\
  task_of (run init overtaking).1 2 = At (Relay "receiver").
Proof.
  split; [reflexivity|]. split; [reflexivity|]. split; [reflexivity|].
  split; [|split; reflexivity].
  unfold lossless. vm_compute. repeat constructor.
Qed.


(** C3, as the code has it.  In a reachable world, when a connection [c]
    declares a role [R] whose slot holds a connection [old], line 83 assigns
    the slot to [c] and nothing in the step closes [old]: the handler of
    [old] has not ended and stays where it was, and [old] is gone only if
    it was gone before.  Unless the first send of the drain raises, the
    step closes nothing at all and the slot holds [c] afterwards. *)
Theorem rebind_keeps_superseded_open (w : World) (c old : Chan) (R : string) :
  reachable w -> valid_role R ->
  task_of w c = At AwaitRole -> slot w R = Some old ->
  let w' := (step w (Recv c (Some R))).1 in
  let acts := (step w (Recv c (Some R))).2 in
  (exists rest, acts = Bind R c :: rest) /\
  (Close old ∉ acts) /\
  task_of w old <> At Finished /\
  task_of w' old = task_of w old /\
  (old ∈ gone w' <-> old ∈ gone w) /\
  (c ∉ gone w \/ queue w R = [] ->
   slot w' R = Some c /\ (forall c', Close c' ∉ acts)).
Proof.
  intros Hr HR Ht Hs w' acts. apply stepwise_reachable_Inv in Hr.
  assert (cl w !! R = Some (Some old)) as Hc.
  { unfold slot, get_client in Hs.
    by destruct (cl w !! R) as [[x|]|]; simplify_eq/=. }
  destruct (inv_queues w Hr R HR) as [q Hq].
  assert (task_of w old <> At Finished) as Hrun.
  { destruct (inv_slot w Hr R old HR Hs) as [H|[H _]]; congruence. }
  assert (c <> old) as Hne.
  { intros ->. destruct (inv_slot w Hr R old HR Hs) as [H|[H _]]; congruence. }
  assert (queue w R = q) as Hqu by by apply stepwise_queue_Some.
  subst w' acts. unfold step, resume. rewrite Ht. cbn [handler].
  unfold accept. rewrite Hc. unfold drain_round.
  cbn [message_queue set_client]. rewrite Hq, Hqu.
  destruct q as [|m q]; [|destruct (ws_send (gone w) c) eqn:Hsend];
    cbn [settle lift on_connection_closed fst snd app].
  - split; [eauto|]. split.
    { intros Hin. by apply list_elem_of_singleton in Hin. }
    split; [done|]. split.
    { by rewrite stepwise_task_of_upd, decide_False. }
    split; [done|]. intros _. split.
    + rewrite stepwise_slot_upd, get_client_set_client. by rewrite decide_True.
    + intros c' Hin. by apply list_elem_of_singleton in Hin.
  - split; [eauto|]. split.
    { intros Hin. repeat (apply elem_of_cons in Hin as [?|Hin]; [done|]).
      by apply elem_of_nil in Hin. }
    split; [done|]. split.
    { by rewrite stepwise_task_of_upd, decide_False. }
    split; [done|]. intros _. split.
    + rewrite stepwise_slot_upd, get_client_set_queue, get_client_set_client.
      by rewrite decide_True.
    + intros c' Hin. repeat (apply elem_of_cons in Hin as [?|Hin]; [done|]).
      by apply elem_of_nil in Hin.
  - split; [eauto|]. split.
    { intros Hin. repeat (apply elem_of_cons in Hin as [?|Hin]; [congruence|]).
      by apply elem_of_nil in Hin. }
    split; [done|]. split.
    { by rewrite stepwise_task_of_upd, decide_False. }
    split; [done|]. intros [Hg|Hnil]; [|done].
    apply ws_send_false in Hsend. done.
Qed.

Lemma rebind_keeps_superseded_open_witness :
  (step (run init [Recv 1 (Some "sender")]).1 (Recv 2 (Some "sender"))).2
    = [Bind "sender" 2] /\
  task_of (step (run init [Recv 1 (Some "sender")]).1 (Recv 2 (Some "sender"))).1 1
    = task_of (run init [Recv 1 (Some "sender")]).1 1 /\
  slot (step (run init [Recv 1 (Some "sender")]).1 (Recv 2 (Some "sender"))).1
    "sender" = Some 2.
Proof.
  pose proof (rebind_keeps_superseded_open
                (run init [Recv 1 (Some "sender")]).1 2 1 "sender") as H.
  cbv zeta in H.
  destruct H as (_ & _ & _ & Ht & _ & Hs).
  - by exists [Recv 1 (Some "sender")].
  - by left.
  - reflexivity.
  - reflexivity.
  - split; [reflexivity|]. split; [exact Ht|].
    apply Hs. by right.
Defined.

(** C3, as stated, fails: a second "sender" takes the slot, the first
    connection is not closed and its handler goes on relaying. *)
Lemma superseded_not_closed :
  (run init [Recv 1 (Some "sender"); Recv 2 (Some "sender");
             Recv 1 (Some "late")]).2
    = [Bind "sender" 1; Bind "sender" 2;
       Arrive "receiver" "late"; Enqueue "receiver" "late"] /\
  slot (run init [Recv 1 (Some "sender"); Recv 2 (Some "sender");
                  Recv 1 (Some "late")]).1 "sender" = Some 2 /\
  task_of (run init [Recv 1 (Some "sender"); Recv 2 (Some "sender");
                     Recv 1 (Some "late")]).1 1 = At (Relay "sender") /\
  gone (run init [Recv 1 (Some "sender"); Recv 2 (Some "sender");
                  Recv 1 (Some "late")]).1 = ∅.
Proof. repeat split; reflexivity. Qed.

(** C4, as stated, fails: the broker issues sends on connections whose far
    end is gone.  In the drain loop: connection 2 is gone when it declares
    "receiver", and line 87 sends "offer" on it.  In the relay loop:
    receiver 2 is gone but still in its slot when the sender's "candidate"
    arrives, and line 97 sends it on connection 2.  Both sends raise. *)
Lemma send_issued_on_closed_channel :
  (2 ∈ gone (run init [Recv 1 (Some "sender"); Recv 1 (Some "offer"); Lost 2]).1 /\
   (step (run init [Recv 1 (Some "sender"); Recv 1 (Some "offer"); Lost 2]).1
         (Recv 2 (Some "receiver"))).2
     = [Bind "receiver" 2; SendFail 2 "offer"; Unbind "receiver"; Close 2]) /\
  (2 ∈ gone receiver_lost /\
   slot receiver_lost "receiver" = Some 2 /\
   (step receiver_lost (Recv 1 (Some "candidate"))).2
     = [Arrive "receiver" "candidate"; SendFail 2 "candidate";
        Unbind "sender"; Close 1]).
Proof.
  split; [split|split; [|split]]; reflexivity.
Qed.

(** C4, as the code has it.  In a reachable world, every send a step issues
    (error reply, queued message or forwarded message, going through or
    raising) is on a connection whose handler has not ended, so on none
    that the server has closed, and the step has closed nothing before it.
    The send goes through exactly when that connection is not closed: no
    message is written to a closed connection, but sends on connections
    closed by their far end are issued, and raise. *)
Theorem sends_go_to_running_handlers (w : World) (e : Event)
    (pre post : list Action) (a : Action) (c : Chan) :
  reachable w ->
  (step w e).2 = (pre ++ a :: post)%list ->
  attempts a = Some c ->
  task_of w c <> At Finished /\
  (forall c', Close c' ∉ pre) /\
  (sends_to a = Some c <-> ~ closed w c).
Proof.
  intros Hr Hacts Ha. apply stepwise_reachable_Inv in Hr.
  destruct (attempts_of_path w e _ _ pre a post c (stepwise_path w e) Hacts Ha)
    as (Hpre & Hgo & Hc).
  assert (task_of w c <> At Finished) as Hrun.
  { destruct Hc as [Ht|[[role Ht]|(R & HR & Hs)]]; [congruence..|].
    destruct (inv_slot w Hr R c HR Hs) as [Ht|[Ht _]]; congruence. }
  split; [done|]. split; [done|].
  rewrite Hgo. unfold closed. split.
  - by intros Hn [Hg|Hf].
  - intros Hn Hg. apply Hn. by left.
Qed.

Lemma sends_go_to_running_handlers_witness :
  (step receiver_lost (Recv 1 (Some "candidate"))).2
    = [Arrive "receiver" "candidate"; SendFail 2 "candidate";
       Unbind "sender"; Close 1] /\
  task_of receiver_lost 2 <> At Finished /\
  (sends_to (SendFail 2 "candidate") = Some 2 <-> ~ closed receiver_lost 2).
Proof.
  split; [reflexivity|].
  destruct (sends_go_to_running_handlers receiver_lost
              (Recv 1 (Some "candidate"))
              [Arrive "receiver" "candidate"]
              [Unbind "sender"; Close 1] (SendFail 2 "candidate") 2)
    as (Ht & _ & Hg).
  - exists [Recv 1 (Some "sender"); Recv 2 (Some "receiver"); Lost 2].
    reflexivity.
  - reflexivity.
  - reflexivity.
  - split; [exact Ht | exact Hg].
Defined.

(** X1.  In every world the server can reach, a slot of "sender" or
    "receiver" that holds a connection holds one whose handler is in its
    drain loop or in its relay loop for that role; and the queue of the
    role is empty unless that handler is still in its drain loop. *)
Theorem slot_holder_drains_or_relays (w : World) (R : string) (c : Chan) :
  reachable w -> valid_role R -> slot w R = Some c ->
  task_of w c = Draining R \/ (task_of w c = At (Relay R) /\ queue w R = []).
Proof.
  intros Hr HR Hs. apply stepwise_reachable_Inv in Hr. by apply inv_slot.
Qed.

Lemma slot_holder_drains_or_relays_witness :
  queue mid_drain "receiver" = ["candidate"] /\
  (task_of mid_drain 2 = Draining "receiver" \/
   (task_of mid_drain 2 = At (Relay "receiver") /\
    queue mid_drain "receiver" = [])).
Proof.
  split; [reflexivity|].
  apply (slot_holder_drains_or_relays mid_drain "receiver" 2).
  - by exists [Recv 1 (Some "sender"); Recv 1 (Some "offer");
               Recv 1 (Some "candidate"); Recv 2 (Some "receiver")].
  - by right.
  - reflexivity.
Defined.

End StepwiseFacts.

(* ===================================================================== *)
(** * Properties of the wrapper's construction *)
(* ===================================================================== *)

Import Config.

Lemma init_default system url p source save :
  truthy source = false ->
  init system url p source save =
    match get_default_source system with
    | inl src => inl (mkWrapper url p src save Broker.init_self None)
    | inr err => inr err
    end.
Proof.
  intros Hf. unfold init. destruct source as [src|]; [|done]. by rewrite Hf.
Qed.

(** C10.  A source that is true in Python's sense is stored as given, on any
    system.  Without one (absent, empty string or zero) the source is
    "/dev/video0" on Linux, "default:none" on Darwin and index 0 on Windows,
    and on every other system the construction raises RuntimeError. *)
Theorem default_source_by_system (system url : string) (p : Z) (save : bool) :
  (forall src, truthy (Some src) = true ->
     init system url p (Some src) save =
       inl (mkWrapper url p src save Broker.init_self None)) /\
  (forall source, truthy source = false ->
     (system = "Linux" ->
        init system url p source save =
          inl (mkWrapper url p (Device "/dev/video0") save Broker.init_self None)) /\
     (system = "Darwin" ->
        init system url p source save =
          inl (mkWrapper url p (Device "default:none") save Broker.init_self None)) /\
     (system = "Windows" ->
        init system url p source save =
          inl (mkWrapper url p (Index 0) save Broker.init_self None)) /\
     (system <> "Linux" -> system <> "Darwin" -> system <> "Windows" ->
        init system url p source save = inr (RuntimeError "Unsupported OS"))).
Proof.
  split.
  - intros src Ht. unfold init. by rewrite Ht.
  - intros source Hf. rewrite (init_default _ _ _ _ _ Hf).
    unfold get_default_source. repeat split.
    + by intros ->.
    + by intros ->.
    + by intros ->.
    + intros H1 H2 H3.
      apply String.eqb_neq in H1, H2, H3. by rewrite H1, H2, H3.
Qed.

Lemma default_source_by_system_witness :
  init "Windows" default_url default_port (Some (Device "video.mp4")) false =
    inl (mkWrapper default_url default_port (Device "video.mp4") false
           Broker.init_self None) /\
  init "Linux" default_url default_port None false =
    inl (mkWrapper default_url default_port (Device "/dev/video0") false
           Broker.init_self None) /\
  init "Windows" default_url default_port (Some (Index 0)) true =
    inl (mkWrapper default_url default_port (Index 0) true Broker.init_self None) /\
  init "FreeBSD" default_url default_port (Some (Device "")) false =
    inr (RuntimeError "Unsupported OS").
Proof.
  destruct (default_source_by_system "Windows" default_url default_port false)
    as [Hgiven _].
  destruct (default_source_by_system "Linux" default_url default_port false)
    as [_ Hlinux].
  destruct (Hlinux None eq_refl) as (Hl & _).
  destruct (default_source_by_system "Windows" default_url default_port true)
    as [_ Hwin].
  destruct (Hwin (Some (Index 0)) eq_refl) as (_ & _ & Hw & _).
  destruct (default_source_by_system "FreeBSD" default_url default_port false)
    as [_ Hbsd].
  destruct (Hbsd (Some (Device "")) eq_refl) as (_ & _ & _ & Hb).
  split; [apply Hgiven; reflexivity|].
  split; [apply Hl; reflexivity|].
  split; [apply Hw; reflexivity|].
  apply Hb; discriminate.
Defined.

(* ===================================================================== *)
(** * Properties of the orchestrators *)
(* ===================================================================== *)

Import Orchestrator.

Lemma wait_for_timeout r : no_reply_within 30 r -> wait_for r 30 = TimedOut.
Proof.
  destruct r as [t m| |t]; simpl; [|done|]; intros Ht;
    by rewrite (proj2 (Nat.leb_gt t 30) Ht).
Qed.

Lemma count_app p (a b : list Call) : count p (a ++ b) = count p a + count p b.
Proof. unfold count. by rewrite filter_app, length_app. Qed.

Lemma count_prelude p env :
  (forall k, p (AddTrack k) = false) -> (forall l s, p (Log l s) = false) ->
  p CreateOffer = false -> p SetLocalDescription = false ->
  count p (sender_prelude env) = 0.
Proof.
  intros Ha Hl Ho Hs. unfold sender_prelude, count.
  destruct (video env), (audio env); simpl;
    repeat (rewrite filter_cons_False by (rewrite ?Ha, ?Hl, ?Ho, ?Hs; done));
    done.
Qed.

(** C7.  Negotiation timeout.  When the rendezvous channel is open and no
    reply arrives within 30 time units, each orchestrator logs the timeout,
    leaves the channel block (closing the channel), closes the engine in its
    finally clause and returns: the remote description is never set, the
    channel is opened once, and channel and engine are closed once each. *)
Theorem negotiation_timeout (env : Env) (sigs : list Signal)
    (save : bool) (rsigs : list RxSignal) :
  connects env = true -> no_reply_within 30 (reply env) ->
  (run_sender env sigs =
     ((sender_prelude env ++ sender_hello env ++
       [Log ERROR "Timeout waiting for answer SDP"; WsClose;
        PcClose; Log INFO "Sender connection closed"])%list,
      pc_close new_pc, Returned) /\
   count is_set_remote (run_sender env sigs).1.1 = 0 /\
   count is_connect (run_sender env sigs).1.1 = 1 /\
   count is_ws_close (run_sender env sigs).1.1 = 1 /\
   count is_pc_close (run_sender env sigs).1.1 = 1) /\
  (run_receiver env save rsigs =
     ((receiver_hello ++
       [Log ERROR "Timeout waiting for offer SDP"; WsClose;
        PcClose; PltClose; Log INFO "Receiver connection closed"])%list,
      pc_close new_pc, Returned) /\
   count is_set_remote (run_receiver env save rsigs).1.1 = 0 /\
   count is_connect (run_receiver env save rsigs).1.1 = 1 /\
   count is_ws_close (run_receiver env save rsigs).1.1 = 1 /\
   count is_pc_close (run_receiver env save rsigs).1.1 = 1).
Proof.
  intros Hc Hr. apply wait_for_timeout in Hr.
  assert (run_sender env sigs =
     ((sender_prelude env ++ sender_hello env ++
       [Log ERROR "Timeout waiting for answer SDP"; WsClose;
        PcClose; Log INFO "Sender connection closed"])%list,
      pc_close new_pc, Returned)) as Hs.
  { unfold run_sender, sender_body. rewrite Hc, Hr. by rewrite <-app_assoc. }
  assert (run_receiver env save rsigs =
     ((receiver_hello ++
       [Log ERROR "Timeout waiting for offer SDP"; WsClose;
        PcClose; PltClose; Log INFO "Receiver connection closed"])%list,
      pc_close new_pc, Returned)) as Hx.
  { unfold run_receiver, receiver_body. rewrite Hc, Hr. by rewrite <-app_assoc. }
  rewrite Hs, Hx. simpl.
  split; (split; [done|]); rewrite ?count_app, ?count_prelude by done; done.
Qed.

Lemma negotiation_timeout_witness :
  (run_sender quiet_env [MainPoll IceClosed]).1.1 =
    [AddTrack "video"; Log INFO "Added video track"; CreateOffer;
     SetLocalDescription; Connect; Send (Token "sender");
     Send (Description "offer" "v=0"); WaitRecv 30;
     Log ERROR "Timeout waiting for answer SDP"; WsClose; PcClose;
     Log INFO "Sender connection closed"] /\
  count is_set_remote (run_receiver quiet_env true []).1.1 = 0.
Proof.
  destruct (negotiation_timeout quiet_env [MainPoll IceClosed] true [])
    as [[Hs _] [_ [Hr _]]]; [reflexivity|exact I|].
  split; [by rewrite Hs|exact Hr].
Defined.

Lemma pc_close_idem e : pc_close (pc_close e) = pc_close e.
Proof. unfold pc_close. by destruct (pc_closed e) eqn:He; simpl; rewrite ?He. Qed.

(** Search a disjunction for an equation that holds. *)
Ltac find_eq := first [reflexivity | left; find_eq | right; find_eq].

Lemma sender_active_live e rest :
  sender_active true e (TrackPoll Live :: rest) =
  let '(tr, e', out) := sender_active true e rest in (Sleep 1 :: tr, e', out).
Proof. simpl. by destruct (sender_active true e rest) as [[??]?]. Qed.

Lemma sender_active_ended e rest :
  sender_active true e (TrackPoll Ended :: rest) =
  let '(tr, e', out) := sender_active false (pc_close e) rest in
  (Log INFO "Video track ended, closing connection" :: PcClose :: tr, e', out).
Proof. simpl. by destruct (sender_active false (pc_close e) rest) as [[??]?]. Qed.

Lemma sender_active_main mon e reported rest :
  sender_active mon e (MainPoll reported :: rest) =
  if is_closed_state (iceConnectionState e reported) then ([], e, true)
  else let '(tr, e', out) := sender_active mon e rest in (Sleep 10 :: tr, e', out).
Proof. done. Qed.

(** The monitor at the first poll that finds the track ended: either the
    keep-alive loop was left before, or the monitor closes the engine at
    that poll. *)
Lemma sender_active_track_end e pre :
  pc_closed e = false ->
  Forall (fun s => s <> TrackPoll Ended) pre ->
  let '(tr, e', out) := sender_active true e (pre ++ [TrackPoll Ended]) in
  (out = true /\ e' = e) \/
  (out = false /\ e' = pc_close e /\
   exists tr0, tr = (tr0 ++ [Log INFO "Video track ended, closing connection";
                             PcClose])%list).
Proof.
  intros He Hpre. induction Hpre as [|s pre Hs Hpre IH].
  - rewrite app_nil_l, sender_active_ended. simpl.
    right. split; [done|]. split; [done|]. by exists [].
  - rewrite <-app_comm_cons. destruct s as [r|[|]]; [| |done].
    + rewrite sender_active_main. unfold iceConnectionState. rewrite He.
      destruct (is_closed_state r); [by left|].
      destruct (sender_active true e (pre ++ [TrackPoll Ended])) as [[tr e'] out].
      destruct IH as [?|(? & ? & tr0 & ->)]; [by left|right].
      split; [done|]. split; [done|]. by exists (Sleep 10 :: tr0).
    + rewrite sender_active_live.
      destruct (sender_active true e (pre ++ [TrackPoll Ended])) as [[tr e'] out].
      destruct IH as [?|(? & ? & tr0 & ->)]; [by left|right].
      split; [done|]. split; [done|]. by exists (Sleep 1 :: tr0).
Qed.

Lemma sender_active_running e pre :
  pc_closed e = false ->
  Forall (fun s => s <> TrackPoll Ended) pre ->
  Forall (fun s => s <> MainPoll IceClosed) pre ->
  (sender_active true e (pre ++ [TrackPoll Ended])).2 = false.
Proof.
  intros He Hpre Hno. induction Hpre as [|s pre Hs Hpre IH].
  - by rewrite app_nil_l, sender_active_ended.
  - apply Forall_cons in Hno as [Hs' Hno]. specialize (IH Hno).
    rewrite <-app_comm_cons. destruct s as [r|[|]]; [| |done].
    + rewrite sender_active_main. unfold iceConnectionState. rewrite He.
      destruct r; try done;
        by destruct (sender_active true e (pre ++ [TrackPoll Ended])) as [[??]?].
    + rewrite sender_active_live.
      by destruct (sender_active true e (pre ++ [TrackPoll Ended])) as [[??]?].
Qed.

(** C8.  End of the video track.  Take a sender that offered a video track
    and completed the negotiation, and let its loops observe [pre] and then
    a poll of the monitor that finds the track ended, no earlier poll of the
    monitor having found that.  By that poll the engine is closed, whatever
    connection states the keep-alive loop was shown.  If the keep-alive loop
    was never shown "closed", the close is the monitor's own, issued at
    that poll, while [run_sender] is still running. *)
Theorem track_end_closes_engine (env : Env) (t : nat) (m : string)
    (pre : list Signal) :
  video env = true -> connects env = true ->
  reply env = Arrives t m -> t <= 30 -> accepts env m = true ->
  Forall (fun s => s <> TrackPoll Ended) pre ->
  let '(tr, e, st) := run_sender env (pre ++ [TrackPoll Ended]) in
  pc_closed e = true /\ PcClose ∈ tr /\
  (Forall (fun s => s <> MainPoll IceClosed) pre ->
   st = Running /\
   exists tr0, tr = (tr0 ++ [Log INFO "Video track ended, closing connection";
                             PcClose])%list).
Proof.
  intros Hv Hc Hr Ht Ha Hpre.
  pose proof (sender_active_track_end new_pc pre eq_refl Hpre) as Hact.
  pose proof (sender_active_running new_pc pre eq_refl Hpre) as Hrun.
  unfold run_sender, sender_body. rewrite Hc, Hr. simpl.
  rewrite (proj2 (Nat.leb_le t 30) Ht), Ha, Hv.
  destruct (sender_active true new_pc (pre ++ [TrackPoll Ended]))
    as [[tr e] out].
  destruct Hact as [[-> ->]|(-> & -> & tr0 & ->)].
  - split; [done|]. split.
    { repeat (rewrite elem_of_app || rewrite elem_of_cons). find_eq. }
    intros Hno. by specialize (Hrun Hno).
  - split; [done|]. split.
    { repeat (rewrite elem_of_app || rewrite elem_of_cons). find_eq. }
    intros _. split; [done|].
    exists (sender_prelude env ++ sender_hello env ++
            [SetRemoteDescription m; StartMonitor] ++ tr0)%list.
    rewrite app_nil_r, <-!app_assoc. reflexivity.
Qed.

Lemma track_end_closes_engine_witness :
  run_sender film_env
    ([MainPoll IceConnected; TrackPoll Live; TrackPoll Live] ++ [TrackPoll Ended])
  = ([AddTrack "video"; Log INFO "Added video track";
      AddTrack "audio"; Log INFO "Added audio track";
      CreateOffer; SetLocalDescription; Connect; Send (Token "sender");
      Send (Description "offer" "v=0"); WaitRecv 30;
      SetRemoteDescription "answer"; StartMonitor;
      Sleep 10; Sleep 1; Sleep 1;
      Log INFO "Video track ended, closing connection"; PcClose],
     pc_close new_pc, Running) /\
  pc_closed (pc_close new_pc) = true.
Proof.
  split; [reflexivity|].
  pose proof (track_end_closes_engine film_env 2 "answer"
                [MainPoll IceConnected; TrackPoll Live; TrackPoll Live]
                eq_refl eq_refl eq_refl) as H.
  assert (2 <= 30) as H2 by lia.
  specialize (H H2 eq_refl).
  assert (Forall (fun s => s <> TrackPoll Ended)
            [MainPoll IceConnected; TrackPoll Live; TrackPoll Live]) as Hf
    by (repeat constructor; discriminate).
  specialize (H Hf). simpl in H. exact (proj1 H).
Defined.

Lemma sender_active_engine mon e sigs :
  pc_close (sender_active mon e sigs).1.2 = pc_close e.
Proof.
  revert mon e. induction sigs as [|s sigs IH]; intros mon e; [done|].
  destruct s as [r|st].
  - rewrite sender_active_main. destruct (is_closed_state _); [done|].
    specialize (IH mon e). by destruct (sender_active mon e sigs) as [[??]?].
  - destruct mon; [|apply IH]. destruct st.
    + rewrite sender_active_live.
      specialize (IH true e). by destruct (sender_active true e sigs) as [[??]?].
    + rewrite sender_active_ended. specialize (IH false (pc_close e)).
      destruct (sender_active false (pc_close e) sigs) as [[??]?].
      simpl in *. by rewrite IH, pc_close_idem.
Qed.

Lemma sender_active_no_ws mon e sigs :
  count is_ws_close (sender_active mon e sigs).1.1 = 0.
Proof.
  revert mon e. induction sigs as [|s sigs IH]; intros mon e; [done|].
  destruct s as [r|st].
  - rewrite sender_active_main. destruct (is_closed_state _); [done|].
    specialize (IH mon e). by destruct (sender_active mon e sigs) as [[??]?].
  - destruct mon; [|apply IH]. destruct st.
    + rewrite sender_active_live.
      specialize (IH true e). by destruct (sender_active true e sigs) as [[??]?].
    + rewrite sender_active_ended. specialize (IH false (pc_close e)).
      by destruct (sender_active false (pc_close e) sigs) as [[??]?].
Qed.

Lemma receiver_active_engine save e sigs :
  pc_close (receiver_active save e sigs).1.2 = pc_close e.
Proof.
  revert e. induction sigs as [|s sigs IH]; intros e; simpl; [done|].
  destruct s as [r|n|k|r].
  - destruct (is_closed_state _); [done|].
    specialize (IH e). by destruct (receiver_active save e sigs) as [[??]?].
  - specialize (IH (pc_close e)).
    destruct (receiver_active save (pc_close e) sigs) as [[??]?].
    simpl in *. by rewrite IH, pc_close_idem.
  - destruct (String.eqb k "q"); [|apply IH].
    specialize (IH (pc_close e)).
    destruct (receiver_active save (pc_close e) sigs) as [[??]?].
    simpl in *. by rewrite IH, pc_close_idem.
  - destruct (is_closed_state _); [|apply IH].
    specialize (IH (pc_close e)).
    destruct (receiver_active save (pc_close e) sigs) as [[??]?].
    simpl in *. by rewrite IH, pc_close_idem.
Qed.

Lemma receiver_active_no_ws save e sigs :
  count is_ws_close (receiver_active save e sigs).1.1 = 0.
Proof.
  revert e. induction sigs as [|s sigs IH]; intros e; simpl; [done|].
  destruct s as [r|n|k|r].
  - destruct (is_closed_state _); [done|].
    specialize (IH e). by destruct (receiver_active save e sigs) as [[??]?].
  - specialize (IH (pc_close e)).
    destruct (receiver_active save (pc_close e) sigs) as [[tr ?]?].
    simpl in *. unfold count in *. simpl.
    rewrite !filter_cons_False by done. rewrite filter_app, length_app, IH.
    by destruct (save && _).
  - destruct (String.eqb k "q"); [|apply IH].
    specialize (IH (pc_close e)).
    by destruct (receiver_active save (pc_close e) sigs) as [[??]?].
  - destruct (is_closed_state _); [|apply IH].
    specialize (IH (pc_close e)).
    by destruct (receiver_active save (pc_close e) sigs) as [[??]?].
Qed.

Lemma sender_body_engine env sigs :
  pc_close (sender_body env sigs).1.2 = pc_close new_pc.
Proof.
  unfold sender_body. destruct (connects env); [|done].
  destruct (wait_for (reply env) 30) as [m| |]; [|done..].
  destruct (accepts env m); [|done].
  pose proof (sender_active_engine (video env) new_pc sigs) as H.
  by destruct (sender_active (video env) new_pc sigs) as [[??]?].
Qed.

Lemma sender_body_ws env sigs :
  (sender_body env sigs).2 = true ->
  count is_ws_close (sender_body env sigs).1.1 = if connects env then 1 else 0.
Proof.
  unfold sender_body. destruct (connects env); [|done].
  destruct (wait_for (reply env) 30) as [m| |]; [|done..].
  destruct (accepts env m); [|done].
  pose proof (sender_active_no_ws (video env) new_pc sigs) as H.
  destruct (sender_active (video env) new_pc sigs) as [[tr e] out].
  simpl in *. intros ->.
  change (count is_ws_close
            ([SetRemoteDescription m] ++
             (if video env then [StartMonitor] else []) ++ tr ++ [WsClose]) = 1).
  rewrite !count_app, H. by destruct (video env).
Qed.

Lemma receiver_body_engine env save sigs :
  pc_close (receiver_body env save sigs).1.2 = pc_close new_pc.
Proof.
  unfold receiver_body. destruct (connects env); [|done].
  destruct (wait_for (reply env) 30) as [m| |]; [|done..].
  destruct (accepts env m); [|done].
  pose proof (receiver_active_engine save new_pc sigs) as H.
  by destruct (receiver_active save new_pc sigs) as [[??]?].
Qed.

Lemma receiver_body_ws env save sigs :
  (receiver_body env save sigs).2 = true ->
  count is_ws_close (receiver_body env save sigs).1.1 =
    if connects env then 1 else 0.
Proof.
  unfold receiver_body. destruct (connects env); [|done].
  destruct (wait_for (reply env) 30) as [m| |]; [|done..].
  destruct (accepts env m); [|done].
  pose proof (receiver_active_no_ws save new_pc sigs) as H.
  destruct (receiver_active save new_pc sigs) as [[tr e] out].
  simpl in *. intros ->.
  change (count is_ws_close
            ([SetRemoteDescription m; CreateAnswer; SetLocalDescription;
              Send (Description "answer" (local_sdp env));
              Log INFO "Sent answer SDP"] ++ tr ++ [WsClose]) = 1).
  by rewrite !count_app, H.
Qed.

Lemma iter_pc_close n e : pc_closed e = true -> Nat.iter n pc_close e = e.
Proof.
  intros He. induction n as [|n IH]; simpl; [done|].
  rewrite IH. unfold pc_close. by rewrite He.
Qed.

(** C9.  Teardown happens once.  Whenever [run_sender] or [run_receiver]
    returns, however many times [pc.close()] was called on the way (by the
    track monitor, by the stream, key and connection-state callbacks, and by
    the finally clause), the engine connection has been released exactly
    once and is closed, any further [pc.close()] leaves it as it is, and the
    rendezvous channel, if it was opened, has been closed exactly once. *)
Theorem teardown_exactly_once (env : Env) (sigs : list Signal)
    (save : bool) (rsigs : list RxSignal) :
  (forall tr e, run_sender env sigs = (tr, e, Returned) ->
     pc_closed e = true /\ releases e = 1 /\
     1 <= count is_pc_close tr /\
     count is_ws_close tr = (if connects env then 1 else 0) /\
     forall n, Nat.iter n pc_close e = e) /\
  (forall tr e, run_receiver env save rsigs = (tr, e, Returned) ->
     pc_closed e = true /\ releases e = 1 /\
     1 <= count is_pc_close tr /\
     count is_ws_close tr = (if connects env then 1 else 0) /\
     forall n, Nat.iter n pc_close e = e).
Proof.
  split.
  - intros tr e. unfold run_sender.
    pose proof (sender_body_engine env sigs) as He.
    pose proof (sender_body_ws env sigs) as Hw.
    destruct (sender_body env sigs) as [[tr0 e0] out]. simpl in *.
    destruct out; [|done]. intros [= <- <-]. rewrite He.
    split; [done|]. split; [done|]. split; [|split].
    + rewrite !count_app. unfold count at 3. simpl. lia.
    + rewrite !count_app, Hw, count_prelude by done.
      unfold count. simpl. lia.
    + intros n. by apply iter_pc_close.
  - intros tr e. unfold run_receiver.
    pose proof (receiver_body_engine env save rsigs) as He.
    pose proof (receiver_body_ws env save rsigs) as Hw.
    destruct (receiver_body env save rsigs) as [[tr0 e0] out]. simpl in *.
    destruct out; [|done]. intros [= <- <-]. rewrite He.
    split; [done|]. split; [done|]. split; [|split].
    + rewrite !count_app. unfold count at 2. simpl. lia.
    + rewrite !count_app, Hw by done. unfold count. simpl. lia.
    + intros n. by apply iter_pc_close.
Qed.

(** The film ends, the monitor closes the engine, the keep-alive loop sees
    the closed connection a second later and the finally clause closes the
    engine again. *)
Lemma teardown_exactly_once_witness :
  count is_pc_close
    (run_sender film_env [MainPoll IceConnected; TrackPoll Ended;
                          MainPoll IceConnected]).1.1 = 2 /\
  releases
    (run_sender film_env [MainPoll IceConnected; TrackPoll Ended;
                          MainPoll IceConnected]).1.2 = 1 /\
  count is_pc_close
    (run_receiver film_env true [StreamEnded 3; KeyPress "q";
                                 IceChange IceClosed; RxMainPoll IceNew]).1.1 = 4 /\
  releases
    (run_receiver film_env true [StreamEnded 3; KeyPress "q";
                                 IceChange IceClosed; RxMainPoll IceNew]).1.2 = 1.
Proof.
  destruct (teardown_exactly_once film_env
              [MainPoll IceConnected; TrackPoll Ended; MainPoll IceConnected]
              true
              [StreamEnded 3; KeyPress "q"; IceChange IceClosed; RxMainPoll IceNew])
    as [Hs Hr].
  split; [reflexivity|]. split.
  - eapply Hs. reflexivity.
  - split; [reflexivity|]. eapply Hr. reflexivity.
Defined.

(* ===================================================================== *)
(** * Further properties of the broker *)
(* ===================================================================== *)

Import Tally.

Lemma Path_dom_queue w e w' acts :
  Path w e w' acts -> dom (mq w') = dom (mq w).
Proof.
  destruct 1; simpl; try done;
    try (apply dom_insert_lookup_L; eauto; fail).
Qed.

Lemma run_dom_queue w es : dom (mq (run w es).1) = dom (mq w).
Proof.
  revert w. induction es as [|e es IH]; intros w; simpl; [done|].
  pose proof (Path_dom_queue w e _ _ (step_path w e)) as H1.
  destruct (step w e) as [w1 a1]. specialize (IH w1).
  destruct (run w1 es) as [w2 a2]. simpl in *. congruence.
Qed.

Lemma reachable_queue_keys w R :
  reachable w -> is_Some (mq w !! R) <-> valid_role R.
Proof.
  intros [es <-]. rewrite <-elem_of_dom, run_dom_queue.
  change (mq Broker.init) with (<["sender" := []]> (<["receiver" := []]> (∅ : gmap string (list string)))).
  rewrite !dom_insert_L, dom_empty_L, !elem_of_union, !elem_of_singleton.
  unfold valid_role. split.
  - intros [?|[?|H]]; [by left|by right|by apply elem_of_empty in H].
  - intros [?|?]; auto.
Qed.

Lemma key_error_path w e w' acts :
  Path w e w' acts -> Escape KeyError ∈ acts ->
  (exists c role, e = Recv c (Some role) /\ task_of w c = AwaitRole /\
                  is_Some (cl w !! role) /\ mq w !! role = None) \/
  (exists c role m, e = Recv c (Some m) /\ task_of w c = Relay role /\
                    mq w !! opposite role = None).
Proof.
  intros HP Hin. destruct HP;
    try (exfalso;
         repeat (apply elem_of_cons in Hin as [Hin|Hin]; [done|]);
         by apply elem_of_nil in Hin).
  - left. by exists c, role.
  - exfalso. apply elem_of_cons in Hin as [Hin|Hin]; [done|].
    by apply list_elem_of_fmap in Hin as (x & Hx & _).
  - right. by exists c, role, m.
Qed.



Lemma opposite_ne role : opposite role <> role.
Proof. unfold opposite. case_decide; congruence. Qed.

Lemma relay_step_cases w c role m :
  task_of w c = Relay role ->
  (exists t, slot w (opposite role) = Some t /\
     (step w (Recv c (Some m))).2 =
       [Arrive (opposite role) m; Forward (opposite role) t m]) \/
  (exists t, (step w (Recv c (Some m))).2 =
       [Arrive (opposite role) m; SendFail t m; Unbind role; Close c]) \/
  (step w (Recv c (Some m))).2 =
     [Arrive (opposite role) m; Enqueue (opposite role) m] \/
  (step w (Recv c (Some m))).2 =
     [Arrive (opposite role) m; Escape KeyError; Close c].
Proof.
  intros Ht. unfold step, handler, relay. rewrite Ht.
  change (get_client (self w) (opposite role)) with (slot w (opposite role)).
  destruct (slot w (opposite role)) as [t|] eqn:Hs.
  - destruct (ws_send (gone w) t); simpl; [left|right; left]; eauto.
  - destruct (mq w !! opposite role); simpl; auto.
Qed.



Lemma tally_app p a b : tally p (a ++ b) = tally p a + tally p b.
Proof. unfold tally. by rewrite filter_app, length_app. Qed.

Lemma tally_cons p a tr :
  tally p (a :: tr) = (if p a then 1 else 0) + tally p tr.
Proof.
  unfold tally. destruct (p a) eqn:Hp.
  - by rewrite filter_cons_True.
  - rewrite filter_cons_False; [done|]. by rewrite Hp.
Qed.

Lemma tally_nil p : tally p [] = 0.
Proof. done. Qed.

Lemma tally_drain p role c q :
  (forall m, p (Drain role c m) = false) -> tally p (map (Drain role c) q) = 0.
Proof.
  intros Hp. induction q as [|m q IH]; simpl; [done|].
  by rewrite tally_cons, Hp, IH.
Qed.

Lemma step_loss w e w' acts R :
  Path w e w' acts -> Inv w -> valid_role R ->
  length (queue w R) + length (arrivals R acts) <=
  length (delivered R acts) + length (queue w' R) + tally send_failed acts.
Proof.
  intros HP [Hk Hq Hs He] HR.
  destruct HP; try (by no_queue Hq);
    after_step; trace_norm;
    rewrite ?tally_cons, ?tally_nil, ?tally_drain by done; simpl;
    repeat case_decide; simplify_eq; simpl; try lia.
  - unfold queue. simpl. lia.
  - erewrite (queue_Some w) by done. lia.
  - erewrite (queue_Some w) by done. simpl. lia.
  - erewrite (queue_Some w) by done. rewrite length_app. simpl. lia.
Qed.

Lemma run_loss w es R :
  Inv w -> valid_role R ->
  length (queue w R) + length (arrivals R (run w es).2) <=
  length (delivered R (run w es).2) + length (queue (run w es).1 R) +
  tally send_failed (run w es).2.
Proof.
  intros Hw HR. revert w Hw. induction es as [|e es IH]; intros w Hw; simpl.
  - rewrite tally_nil. simpl. lia.
  - pose proof (step_path w e) as HP. pose proof (step_Inv w e Hw) as Hw1.
    pose proof (step_loss _ _ _ _ R HP Hw HR) as H1.
    destruct (step w e) as [w1 a1]. simpl in *.
    specialize (IH w1 Hw1). destruct (run w1 es) as [w2 a2]. simpl in *.
    rewrite delivered_app, arrivals_app, tally_app, !length_app. lia.
Qed.



Lemma step_bind_once w e w' acts c :
  Path w e w' acts ->
  tally (is_bind c) acts <= 1 /\
  (tally (is_bind c) acts = 1 ->
   task_of w c = AwaitRole /\ task_of w' c <> AwaitRole) /\
  (task_of w c <> AwaitRole -> task_of w' c <> AwaitRole).
Proof.
  intros HP.
  destruct HP; rewrite ?tally_cons, ?tally_nil, ?tally_drain by done;
    simpl; after_step;
    repeat (case_bool_decide || case_decide); simplify_eq;
    repeat split; intros; try lia; try congruence; done.
Qed.

Lemma step_close_once w e w' acts c :
  Path w e w' acts ->
  tally (is_close c) acts <= 1 /\
  (tally (is_close c) acts = 1 ->
   task_of w c <> Finished /\ task_of w' c = Finished) /\
  (task_of w c = Finished -> task_of w' c = Finished).
Proof.
  intros HP.
  destruct HP; rewrite ?tally_cons, ?tally_nil, ?tally_drain by done;
    simpl; after_step;
    repeat (case_bool_decide || case_decide); simplify_eq;
    repeat split; intros; try lia; try congruence; done.
Qed.

Lemma run_finished_stays w es c :
  task_of w c = Finished -> task_of (run w es).1 c = Finished.
Proof.
  revert w. induction es as [|e es IH]; intros w Hf; simpl; [done|].
  destruct (step_close_once w e _ _ c (step_path w e)) as (_ & _ & H3).
  destruct (step w e) as [w1 a1]. simpl in *.
  specialize (IH w1 (H3 Hf)). by destruct (run w1 es).
Qed.

Lemma run_bind_once w es c :
  tally (is_bind c) (run w es).2 <= 1 /\
  (task_of w c <> AwaitRole -> tally (is_bind c) (run w es).2 = 0).
Proof.
  revert w. induction es as [|e es IH]; intros w; simpl.
  - rewrite tally_nil. split; [lia|done].
  - destruct (step_bind_once w e _ _ c (step_path w e)) as (H1 & H2 & H3).
    destruct (step w e) as [w1 a1]. simpl in *.
    destruct (IH w1) as [I1 I2]. destruct (run w1 es) as [w2 a2]. simpl in *.
    rewrite tally_app.
    destruct (decide (tally (is_bind c) a1 = 1)) as [Hone|Hnone].
    + destruct (H2 Hone) as [Ha Hb]. rewrite (I2 Hb).
      split; [lia|]. intros Hn. by destruct Hn.
    + split; [lia|]. intros Hn. rewrite (I2 (H3 Hn)). lia.
Qed.

Lemma run_close_once w es c :
  tally (is_close c) (run w es).2 <= 1 /\
  (task_of w c = Finished -> tally (is_close c) (run w es).2 = 0) /\
  (1 <= tally (is_close c) (run w es).2 -> task_of (run w es).1 c = Finished).
Proof.
  revert w. induction es as [|e es IH]; intros w; simpl.
  - rewrite tally_nil. split; [lia|]. split; [done|lia].
  - destruct (step_close_once w e _ _ c (step_path w e)) as (H1 & H2 & H3).
    destruct (step w e) as [w1 a1]. simpl in *.
    destruct (IH w1) as (I1 & I2 & I3).
    pose proof (run_finished_stays w1 es c) as I4.
    destruct (run w1 es) as [w2 a2]. simpl in *.
    rewrite tally_app.
    destruct (decide (tally (is_close c) a1 = 1)) as [Hone|Hnone].
    + destruct (H2 Hone) as [Ha Hb]. rewrite (I2 Hb).
      split; [lia|]. split; [intros; congruence|]. intros _. by apply I4.
    + split; [lia|]. split.
      * intros Hf. rewrite (I2 (H3 Hf)). lia.
      * intros Hge. apply I3. lia.
Qed.



(** X6.  A connection that binds when it is gone already.  If the queue of
    the declared role holds [m :: q], the first send raises after [m] has
    been popped: [m] is lost, [q] stays queued in its order, the slot ends
    empty and the handler ends; nothing is delivered. *)
Theorem drain_on_gone_connection_drops_head (w : World) (c : Chan)
    (R m : string) (q : list string) :
  task_of w c = AwaitRole -> is_Some (cl w !! R) ->
  mq w !! R = Some (m :: q) -> c ∈ gone w ->
  (step w (Recv c (Some R))).2 = [Bind R c; SendFail c m; Unbind R; Close c] /\
  slot (step w (Recv c (Some R))).1 R = None /\
  queue (step w (Recv c (Some R))).1 R = q /\
  task_of (step w (Recv c (Some R))).1 c = Finished.
Proof.
  intros Ht [x Hx] Hq Hg.
  assert (step w (Recv c (Some R)) =
          (upd w (set_client (set_queue (set_client (self w) R (Some c)) R q)
                    R None) c Finished,
           [Bind R c; SendFail c m; Unbind R; Close c])) as ->.
  { unfold step, handler, accept. rewrite Ht, Hx. simpl. rewrite Hq.
    rewrite drain_gone; [done|]. by apply ws_send_false. }
  simpl. split; [done|]. after_step. by repeat case_decide.
Qed.

Lemma drain_on_gone_connection_drops_head_witness :
  (step late_receiver (Recv 2 (Some "receiver"))).2
    = [Bind "receiver" 2; SendFail 2 "m1"; Unbind "receiver"; Close 2] /\
  queue (step late_receiver (Recv 2 (Some "receiver"))).1 "receiver" = ["m2"].
Proof.
  destruct (drain_on_gone_connection_drops_head late_receiver 2
              "receiver" "m1" ["m2"]) as (Ha & _ & Hq & _).
  - reflexivity.
  - vm_compute. eauto.
  - reflexivity.
  - assert (gone late_receiver = {[2]} ∪ ∅) as -> by reflexivity.
    apply elem_of_union. left. by apply elem_of_singleton.
  - by split.
Defined.

Lemma accept_path_frame w c r w' acts R :
  Path w (Recv c r) w' acts -> task_of w c = AwaitRole ->
  r <> Some R ->
  slot w' R = slot w R /\ queue w' R = queue w R /\
  (forall c' m, (Bind R c' ∉ acts) /\ (Drain R c' m ∉ acts)).
Proof.
  intros HP Ht Hr. remember (Recv c r) as e eqn:He.
  destruct HP; simplify_eq; try congruence; after_step;
    repeat case_decide; simplify_eq.
  all: split; [try done|split; [try done|]].
  all: try (intros c' m'; split; intros Hin;
    repeat (apply elem_of_cons in Hin as [Hin|Hin]; [congruence|]);
    try (by apply elem_of_nil in Hin);
    apply list_elem_of_fmap in Hin as (x & Hx & _); congruence).
Qed.

(** X7.  A first message other than "sender" and "receiver" never touches
    the two slots or the two queues, whatever else it does.  For every world
    and every connection that has not declared its role yet: when its first
    recv gives anything but the role [R] (another text, or ConnectionClosed),
    the slot and the queue of [R] are as before, and the step neither binds
    the slot of [R] nor sends from its queue. *)
Theorem foreign_declaration_leaves_roles_alone (w : World) (c : Chan)
    (r : option string) (R : string) :
  task_of w c = AwaitRole -> r <> Some R ->
  slot (step w (Recv c r)).1 R = slot w R /\
  queue (step w (Recv c r)).1 R = queue w R /\
  (forall c' m, (Bind R c' ∉ (step w (Recv c r)).2) /\
                (Drain R c' m ∉ (step w (Recv c r)).2)).
Proof.
  intros Ht Hr. by apply (accept_path_frame w c r _ _ R (step_path w _)).
Qed.

Lemma foreign_declaration_leaves_roles_alone_witness :
  slot (step two_queued (Recv 7 (Some "observer"))).1 "receiver"
    = slot two_queued "receiver" /\
  queue (step two_queued (Recv 7 (Some "observer"))).1 "receiver"
    = ["offer"; "candidate"].
Proof.
  destruct (foreign_declaration_leaves_roles_alone two_queued 7
              (Some "observer") "receiver") as (Hs & Hq & _).
  - reflexivity.
  - discriminate.
  - split; [exact Hs|]. rewrite Hq. reflexivity.
Defined.

(* ===================================================================== *)
(** * Further properties of the wrapper's construction *)
(* ===================================================================== *)

(** X8.  The source a wrapper ends up with is a fixed point of the
    construction: building a wrapper again on the same system from the
    source of a wrapper that was built gives that same wrapper, also when
    the source is the default index 0, which is false in Python's sense. *)
Theorem init_source_stable (system url : string) (p : Z)
    (s : option Source) (save : bool) (wr : WebRTCWrapper) :
  Config.init system url p s save = inl wr ->
  Config.init system url p (Some (source wr)) save = inl wr.
Proof.
  unfold Config.init.
  destruct s as [src|]; [destruct (truthy (Some src)) eqn:Ht|].
  - intros [= <-]. cbn -[truthy get_default_source]. by rewrite Ht.
  - destruct (get_default_source system) as [d|err] eqn:Hd; [|done].
    intros [= <-]. cbn -[truthy get_default_source].
    by destruct (truthy (Some d)).
  - destruct (get_default_source system) as [d|err] eqn:Hd; [|done].
    intros [= <-]. cbn -[truthy get_default_source].
    by destruct (truthy (Some d)).
Qed.

Lemma init_source_stable_witness :
  Config.init "Windows" default_url default_port (Some (Index 0)) false =
    inl (mkWrapper default_url default_port (Index 0) false Broker.init_self None).
Proof.
  apply (init_source_stable "Windows" default_url default_port None false
           (mkWrapper default_url default_port (Index 0) false
              Broker.init_self None)).
  reflexivity.
Defined.

(* ===================================================================== *)
(** * Further properties of the orchestrators *)
(* ===================================================================== *)

Import Session.

Lemma count_cons p c (tr : list Call) :
  count p (c :: tr) = (if p c then 1 else 0) + count p tr.
Proof.
  unfold count. destruct (p c) eqn:Hp.
  - by rewrite filter_cons_True.
  - rewrite filter_cons_False; [done|]. by rewrite Hp.
Qed.

Lemma count_nil p : count p [] = 0.
Proof. done. Qed.

(** X9.  A negotiation that does not go through ends the run.  When the
    channel does not open, or no message arrives in time, or the recv
    raises, or the message is not accepted, [run_sender] and [run_receiver]
    return whatever the polls and callbacks would show: the result is that
    of a run without any, the remote description is not set, no monitor is
    started, and the engine is closed by the one [pc.close()] of the
    finally clause. *)
Theorem failed_negotiation_returns (env : Env) (sigs : list Signal)
    (save : bool) (rsigs : list RxSignal) :
  negotiated env = false ->
  (run_sender env sigs = run_sender env [] /\
   (run_sender env sigs).2 = Returned /\
   (run_sender env sigs).1.2 = pc_close new_pc /\
   count is_set_remote (run_sender env sigs).1.1 = 0 /\
   count is_start_monitor (run_sender env sigs).1.1 = 0 /\
   count is_pc_close (run_sender env sigs).1.1 = 1) /\
  (run_receiver env save rsigs = run_receiver env save [] /\
   (run_receiver env save rsigs).2 = Returned /\
   (run_receiver env save rsigs).1.2 = pc_close new_pc /\
   count is_set_remote (run_receiver env save rsigs).1.1 = 0 /\
   count is_pc_close (run_receiver env save rsigs).1.1 = 1).
Proof.
  unfold negotiated, run_sender, sender_body, run_receiver, receiver_body.
  intros Hn. destruct (connects env); simpl in Hn.
  - destruct (wait_for (reply env) 30) as [m| |]; simpl.
    + rewrite Hn. simpl.
      repeat split; rewrite ?count_app, ?count_prelude by done; done.
    + repeat split; rewrite ?count_app, ?count_prelude by done; done.
    + repeat split; rewrite ?count_app, ?count_prelude by done; done.
  - simpl. repeat split; rewrite ?count_app, ?count_prelude by done; done.
Qed.

Lemma failed_negotiation_returns_witness :
  run_sender garbled_env [TrackPoll Live; MainPoll IceConnected] =
    ([AddTrack "video"; Log INFO "Added video track";
      AddTrack "audio"; Log INFO "Added audio track";
      CreateOffer; SetLocalDescription; Connect; Send (Token "sender");
      Send (Description "offer" "v=0"); WaitRecv 30; WsClose;
      Log ERROR "Sender connection error"; PcClose;
      Log INFO "Sender connection closed"],
     pc_close new_pc, Returned).
Proof.
  destruct (failed_negotiation_returns garbled_env
              [TrackPoll Live; MainPoll IceConnected] false [])
    as [(Hs & _) _]; [reflexivity|].
  rewrite Hs. reflexivity.
Defined.

Lemma sends_app a b : sends (a ++ b) = (sends a ++ sends b)%list.
Proof. apply omap_app. Qed.

Lemma sends_cons c tr :
  sends (c :: tr) =
  match sent_payload c with Some p => p :: sends tr | None => sends tr end.
Proof. done. Qed.

Lemma sends_nil : sends [] = [].
Proof. done. Qed.

Lemma sender_prelude_sends env : sends (sender_prelude env) = [].
Proof. unfold sender_prelude. by destruct (video env), (audio env). Qed.

Lemma sender_active_sends mon e sigs : sends (sender_active mon e sigs).1.1 = [].
Proof.
  revert mon e. induction sigs as [|s sigs IH]; intros mon e; [done|].
  destruct s as [r|st].
  - rewrite sender_active_main. destruct (is_closed_state _); [done|].
    specialize (IH mon e). by destruct (sender_active mon e sigs) as [[??]?].
  - destruct mon; [|apply IH]. destruct st.
    + rewrite sender_active_live. specialize (IH true e).
      by destruct (sender_active true e sigs) as [[??]?].
    + rewrite sender_active_ended. specialize (IH false (pc_close e)).
      by destruct (sender_active false (pc_close e) sigs) as [[??]?].
Qed.

Lemma receiver_active_sends save e sigs :
  sends (receiver_active save e sigs).1.1 = [].
Proof.
  revert e. induction sigs as [|s sigs IH]; intros e; simpl; [done|].
  destruct s as [r|n|k|r].
  - destruct (is_closed_state _); [done|].
    specialize (IH e). by destruct (receiver_active save e sigs) as [[??]?].
  - specialize (IH (pc_close e)).
    destruct (receiver_active save (pc_close e) sigs) as [[tr ?]?].
    simpl in *. rewrite !sends_cons. simpl. rewrite sends_app, IH.
    by destruct (save && _).
  - destruct (String.eqb k "q"); [|apply IH].
    specialize (IH (pc_close e)).
    by destruct (receiver_active save (pc_close e) sigs) as [[??]?].
  - destruct (is_closed_state _); [|apply IH].
    specialize (IH (pc_close e)).
    by destruct (receiver_active save (pc_close e) sigs) as [[??]?].
Qed.


Lemma sender_active_calm mon e sigs :
  pc_closed e = false ->
  Forall (fun s => calm mon s = true) sigs ->
  (sender_active mon e sigs).2 = false /\
  (sender_active mon e sigs).1.2 = e /\
  count is_pc_close (sender_active mon e sigs).1.1 = 0.
Proof.
  intros He Hc. induction Hc as [|s sigs Hs Hc IH]; [done|].
  destruct s as [r|st].
  - rewrite sender_active_main. unfold iceConnectionState. rewrite He.
    simpl in Hs. apply negb_true_iff in Hs. rewrite Hs.
    destruct (sender_active mon e sigs) as [[??]?]. simpl in *.
    by rewrite count_cons.
  - destruct mon.
    + destruct st; [|done]. rewrite sender_active_live.
      destruct (sender_active true e sigs) as [[??]?]. simpl in *.
      by rewrite count_cons.
    + exact IH.
Qed.

(** X11.  The keep-alive loop of the sender ends on "closed" only.  After a
    negotiation that went through, as long as no poll shows the connection
    state "closed" (it may show "failed" or "disconnected") and the monitor
    sees no ended track, [run_sender] is still running: nothing has closed
    the engine or the channel. *)
Theorem keep_alive_ends_on_closed_only (env : Env) (sigs : list Signal) :
  negotiated env = true ->
  Forall (fun s => calm (video env) s = true) sigs ->
  (run_sender env sigs).2 = Running /\
  (run_sender env sigs).1.2 = new_pc /\
  count is_pc_close (run_sender env sigs).1.1 = 0 /\
  count is_ws_close (run_sender env sigs).1.1 = 0.
Proof.
  intros Hn Hs.
  destruct (sender_active_calm (video env) new_pc sigs eq_refl Hs)
    as (S1 & S2 & S3).
  pose proof (sender_active_no_ws (video env) new_pc sigs) as S4.
  revert Hn.
  unfold negotiated, run_sender, sender_body.
  destruct (connects env); [|done]. simpl.
  destruct (wait_for (reply env) 30) as [m| |]; [|done..].
  intros ->.
  destruct (sender_active (video env) new_pc sigs) as [[tr e] out].
  simpl in *. subst.
  repeat split; destruct (video env); simpl;
    repeat (rewrite count_app || rewrite count_cons || rewrite count_nil ||
            (rewrite count_prelude by done) ||
            rewrite S3 || rewrite S4);
    simpl; done.
Qed.

Lemma keep_alive_ends_on_closed_only_witness :
  (run_sender stuck_env
     [MainPoll IceConnected; TrackPoll Ended; MainPoll IceDisconnected;
      MainPoll IceFailed; MainPoll IceFailed]).2 = Running.
Proof.
  destruct (keep_alive_ends_on_closed_only stuck_env
              [MainPoll IceConnected; TrackPoll Ended; MainPoll IceDisconnected;
               MainPoll IceFailed; MainPoll IceFailed]) as (Hs & _).
  - reflexivity.
  - repeat constructor.
  - exact Hs.
Defined.

Lemma sender_active_no_track_close mon e sigs :
  mon = false \/ Forall (fun s => s <> TrackPoll Ended) sigs ->
  count is_pc_close (sender_active mon e sigs).1.1 = 0 /\
  (sender_active mon e sigs).1.2 = e.
Proof.
  revert mon e. induction sigs as [|s sigs IH]; intros mon e Hm; [done|].
  assert (mon = false \/ Forall (fun s => s <> TrackPoll Ended) sigs) as Hm'.
  { destruct Hm as [?|Hf]; [by left|right]. by apply Forall_cons in Hf as [_ ?]. }
  destruct s as [r|st].
  - rewrite sender_active_main. destruct (is_closed_state _); [done|].
    destruct (IH mon e Hm') as [I1 I2].
    destruct (sender_active mon e sigs) as [[??]?]. simpl in *.
    by rewrite count_cons.
  - destruct mon; [|by apply IH].
    destruct Hm as [?|Hf]; [done|]. apply Forall_cons in Hf as [Hne _].
    destruct st; [|done]. rewrite sender_active_live.
    destruct (IH true e Hm') as [I1 I2].
    destruct (sender_active true e sigs) as [[??]?]. simpl in *.
    by rewrite count_cons.
Qed.

(** X12.  A track that stays live never closes the connection.  When no
    video track was offered, or no poll of the monitor finds the track
    ended, the only [pc.close()] of [run_sender] is the one of its finally
    clause: none while it runs, one when it has returned. *)
Theorem live_track_never_closes (env : Env) (sigs : list Signal) :
  video env = false \/ Forall (fun s => s <> TrackPoll Ended) sigs ->
  count is_pc_close (run_sender env sigs).1.1 =
    match (run_sender env sigs).2 with Returned => 1 | Running => 0 end.
Proof.
  intros Hv.
  destruct (sender_active_no_track_close (video env) new_pc sigs Hv) as [H1 _].
  unfold run_sender, sender_body.
  destruct (connects env); simpl.
  2: { by rewrite !count_app, count_prelude. }
  destruct (wait_for (reply env) 30) as [m| |]; simpl.
  2,3: by rewrite !count_app, count_prelude.
  destruct (accepts env m); simpl.
  2: { by rewrite !count_app, count_prelude. }
  destruct (sender_active (video env) new_pc sigs) as [[tr e] out].
  simpl in *.
  destruct out, (video env); simpl;
    repeat (rewrite count_app || rewrite count_cons || rewrite count_nil ||
            (rewrite count_prelude by done) || rewrite H1);
    simpl; done.
Qed.

Lemma live_track_never_closes_witness :
  count is_pc_close
    (run_sender film_env [TrackPoll Live; MainPoll IceConnected; TrackPoll Live;
                          MainPoll IceClosed]).1.1 = 1.
Proof.
  apply (live_track_never_closes film_env
           [TrackPoll Live; MainPoll IceConnected; TrackPoll Live;
            MainPoll IceClosed]).
  right. repeat constructor; discriminate.
Defined.

Lemma receiver_active_heeded save e sigs :
  receiver_active save e (filter (fun s => heeded s = true) sigs) =
  receiver_active save e sigs.
Proof.
  revert e. induction sigs as [|s sigs IH]; intros e; [done|].
  destruct s as [r|n|k|r].
  - rewrite filter_cons_True by done. simpl. by rewrite IH.
  - rewrite filter_cons_True by done. simpl. by rewrite IH.
  - destruct (String.eqb k "q") eqn:Hk.
    + rewrite filter_cons_True by (simpl; by rewrite Hk). simpl.
      by rewrite Hk, IH.
    + rewrite filter_cons_False by (simpl; by rewrite Hk). simpl.
      by rewrite Hk, IH.
  - rewrite filter_cons_True by done. simpl. by rewrite !IH.
Qed.

(** X13.  Only the key "q" matters.  Key presses other than "q" have no
    effect on [run_receiver]: dropping them from what happens to the
    receiver gives the same calls, the same engine and the same status. *)
Theorem other_keys_are_ignored (env : Env) (save : bool) (rsigs : list RxSignal) :
  run_receiver env save (filter (fun s => heeded s = true) rsigs) =
  run_receiver env save rsigs.
Proof.
  unfold run_receiver, receiver_body. by rewrite receiver_active_heeded.
Qed.



(* ===================================================================== *)
(** * Properties of the display loop *)
(* ===================================================================== *)

Import Display.

Lemma flip_channels_involutive img : flip_channels (flip_channels img) = img.
Proof.
  unfold flip_channels. rewrite map_map.
  rewrite <-(map_id img) at 2. apply map_ext. intros row.
  rewrite map_map. rewrite <-(map_id row) at 2. apply map_ext.
  intros px. apply rev_involutive.
Qed.

Lemma written_app a b : written (a ++ b) = (written a ++ written b)%list.
Proof. apply omap_app. Qed.

Lemma opened_app a b : opened (a ++ b) = (opened a ++ opened b)%list.
Proof. apply omap_app. Qed.

Lemma shown_app a b : shown (a ++ b) = (shown a ++ shown b)%list.
Proof. apply omap_app. Qed.

Lemma display_frame_facts save st img :
  written (display_frame save st img).2 = (if save then [img] else []) /\
  shown (display_frame save st img).2 = [flip_channels img] /\
  opened (display_frame save st img).2 =
    (if save && negb (bool_decide (is_Some (video_writer st)))
     then [((shape2 img).2, (shape2 img).1)] else []) /\
  img_display (display_frame save st img).1 = true /\
  (is_Some (video_writer (display_frame save st img).1) <->
   save = true \/ is_Some (video_writer st)).
Proof.
  unfold display_frame.
  destruct (video_writer st) as [size|], save, (img_display st); simpl;
    (split; [done|split; [done|split; [done|split; [done|]]]]);
    (split; [intros ?|intros [?|[? ?]]]); try done; eauto.
Qed.

Lemma display_video_facts save st frames :
  written (display_video save st frames).2 = (if save then frames else []) /\
  shown (display_video save st frames).2 = map flip_channels frames /\
  opened (display_video save st frames).2 =
    match frames with
    | img :: _ =>
        if save && negb (bool_decide (is_Some (video_writer st)))
        then [((shape2 img).2, (shape2 img).1)] else []
    | [] => []
    end /\
  (is_Some (video_writer (display_video save st frames).1) <->
   (save = true /\ frames <> []) \/ is_Some (video_writer st)).
Proof.
  revert st. induction frames as [|img rest IH]; intros st.
  - simpl. repeat split; try by destruct save.
    + intros ?. by right.
    + intros [[_ ?]|?]; done.
  - simpl.
    destruct (display_frame_facts save st img) as (F1 & F2 & F3 & F4 & F5).
    destruct (display_frame save st img) as [st1 a1]. simpl in *.
    destruct (IH st1) as (I1 & I2 & I3 & I4).
    destruct (display_video save st1 rest) as [st2 a2]. simpl in *.
    rewrite written_app, shown_app, opened_app, F1, F2, F3, I1, I2, I3.
    split; [by destruct save|]. split; [done|]. split.
    + destruct rest as [|img' rest']; [by rewrite app_nil_r|].
      destruct save; simpl; [|done].
      assert (is_Some (video_writer st1)) as Hw by (apply F5; by left).
      rewrite (bool_decide_eq_true_2 _ Hw). simpl. by rewrite app_nil_r.
    + rewrite I4, F5. split.
      * intros [[-> _]|[->|?]]; [by left|by left|by right].
      * intros [[-> _]|?]; right; [by left|by right].
Qed.

Lemma display_video_artist save st frames :
  length (filter (fun d => created_artist d = true)
            (display_video save st frames).2) =
  if img_display st then 0 else match frames with [] => 0 | _ => 1 end.
Proof.
  revert st. induction frames as [|img rest IH]; intros st.
  - simpl. by destruct (img_display st).
  - simpl.
    destruct (display_frame_facts save st img) as (_ & _ & _ & F4 & _).
    assert (length (filter (fun d => created_artist d = true)
                      (display_frame save st img).2) =
            if img_display st then 0 else 1) as Ha.
    { unfold display_frame.
      by destruct (video_writer st), save, (img_display st). }
    destruct (display_frame save st img) as [st1 a1]. simpl in *.
    specialize (IH st1). rewrite F4 in IH.
    destruct (display_video save st1 rest) as [st2 a2]. simpl in *.
    rewrite filter_app, length_app, Ha, IH. by destruct (img_display st).
Qed.

(** X15.  What is saved.  Starting without a writer, [display_video] hands
    every frame to the video file, in order, when saving is on, and none
    otherwise; the file is opened at most once, at the first frame, with
    that frame's width and height in this order; and a writer exists at the
    end exactly when saving is on and a frame was received, which is the
    condition under which the stream's end releases it. *)
Theorem saved_video_is_the_stream (save : bool) (frames : list Image) :
  written (display_video save blank frames).2 = (if save then frames else []) /\
  opened (display_video save blank frames).2 =
    match frames with
    | img :: _ => if save then [((shape2 img).2, (shape2 img).1)] else []
    | [] => []
    end /\
  (is_Some (video_writer (display_video save blank frames).1) <->
   save && (0 <? length frames)%nat = true).
Proof.
  destruct (display_video_facts save blank frames) as (H1 & _ & H3 & H4).
  split; [done|]. split.
  - rewrite H3. destruct frames; [done|]. simpl. by rewrite andb_true_r.
  - rewrite H4. destruct save, frames as [|img rest]; simpl; split;
      try done; try (intros [[? ?]|[? ?]]; done).
    intros _. by left.
Qed.

(** X16.  What is shown.  Every frame is put on the figure with its channel
    order reversed, in the order received: the first by [ax.imshow], which
    is called once, the later ones by [set_data].  Reversing the channels
    of what is shown gives back the frames, so with saving on what is saved
    is what was shown, channels swapped back. *)
Theorem shown_video_is_the_stream (save : bool) (frames : list Image) :
  shown (display_video save blank frames).2 = map flip_channels frames /\
  map flip_channels (shown (display_video save blank frames).2) = frames /\
  written (display_video save blank frames).2 =
    (if save
     then map flip_channels (shown (display_video save blank frames).2)
     else []) /\
  length (filter (fun d => created_artist d = true)
            (display_video save blank frames).2) =
    match frames with [] => 0 | _ => 1 end.
Proof.
  destruct (display_video_facts save blank frames) as (H1 & H2 & _).
  assert (map flip_channels (map flip_channels frames) = frames) as Hinv.
  { rewrite map_map. rewrite <-(map_id frames) at 2. apply map_ext.
    apply flip_channels_involutive. }
  rewrite H2, Hinv, H1. split; [done|]. split; [done|]. split; [done|].
  apply (display_video_artist save blank frames).
Qed.
